(** * Sparkify data-lake ETL (etl.py): a shallow embedding and its properties

    The script reads two collections of JSON records (the song catalog and
    the listening-event log), derives five tables with the dataframe engine
    (select, filter, distinct, one left outer join) and writes each with
    [mode='overwrite'].  The dataframe operators are modelled on lists of
    typed rows with nullable columns; the process (environment variables,
    engine session and its temporary views, object storage, the loads
    issued) is threaded through a state-and-error monad.  The Python lambda
    of the timestamp column is computed in binary64, as Python computes
    it. *)

From stdpp Require Import base option list strings gmap fin_maps.
From Stdlib Require Import ZArith Lia SpecFloat Ascii.

Local Open Scope Z_scope.

(** ** Column values

    Every column inferred from JSON is nullable: a column of type [T] is
    carried as [option T], [None] being SQL NULL.  A double is carried by an
    integer code, one per value the engine tells apart. *)

Definition double := Z.

(** SQL comparison is three-valued: a comparison with NULL is NULL. *)
Definition sql_eq {A} `{EqDecision A} (a b : option A) : option bool :=
  match a, b with
  | Some x, Some y => Some (bool_decide (x = y))
  | _, _ => None
  end.

Definition sql_and (a b : option bool) : option bool :=
  match a, b with
  | Some false, _ | _, Some false => Some false
  | Some true, Some true => Some true
  | _, _ => None
  end.

(** A filter or a join condition keeps a row only when the condition is
    TRUE; FALSE and NULL both drop it. *)
Definition holds (c : option bool) : bool :=
  match c with Some true => true | _ => false end.

(** ** Dataframe operators *)

(** [df.filter(cond)] *)
Definition df_filter {A} (cond : A → option bool) (df : list A) : list A :=
  List.filter (λ r, holds (cond r)) df.

(** [df.select(...)] / [df.selectExpr(...)]: a row-wise projection. *)
Definition df_select {A B} (proj : A → B) (df : list A) : list B :=
  map proj df.

(** [df.distinct()]: one row per class of rows equal in every column (NULL
    groups with NULL).  The engine promises no row order; the model keeps the
    last occurrence of each row. *)
Definition distinct {A} `{EqDecision A} (df : list A) : list A :=
  remove_dups df.

(** [left LEFT JOIN right ON cond]: every left row is paired with each right
    row for which the condition is TRUE, or once with no right row when
    there is none. *)
Definition left_join {A B} (on : A → B → option bool)
    (left : list A) (right : list B) : list (A * option B) :=
  flat_map (λ l,
      match List.filter (λ r, holds (on l r)) right with
      | [] => [(l, None)]
      | ms => map (λ r, (l, Some r)) ms
      end) left.

(** ** Local date and time *)

(** Proleptic Gregorian calendar over day numbers counted from 1970-01-01. *)
Definition days_from_civil (y m d : Z) : Z :=
  let y' := if m <=? 2 then y - 1 else y in
  let era := y' / 400 in
  let yoe := y' - era * 400 in
  let mp := if 2 <? m then m - 3 else m + 9 in
  let doy := (153 * mp + 2) / 5 + d - 1 in
  let doe := yoe * 365 + yoe / 4 - yoe / 100 + doy in
  era * 146097 + doe - 719468.

Definition civil_from_days (z : Z) : Z * Z * Z :=
  let z := z + 719468 in
  let era := z / 146097 in
  let doe := z - era * 146097 in
  let yoe := (doe - doe / 1460 + doe / 36524 - doe / 146096) / 365 in
  let doy := doe - (365 * yoe + yoe / 4 - yoe / 100) in
  let mp := (5 * doy + 2) / 153 in
  let d := doy - (153 * mp + 2) / 5 + 1 in
  let m := if mp <? 10 then mp + 3 else mp - 9 in
  let y := yoe + era * 400 in
  (if m <=? 2 then y + 1 else y, m, d).

(** A naive [datetime.datetime], as [datetime.fromtimestamp] returns it. *)
Record datetime := Datetime {
  dt_year : Z; dt_month : Z; dt_day : Z;
  dt_hour : Z; dt_minute : Z; dt_second : Z; dt_microsecond : Z
}.

#[global] Instance datetime_eq_dec : EqDecision datetime.
Proof. solve_decision. Defined.

(** The local date and time, in the zone whose offset from UTC at the
    instant [secs] is [utc_offset secs] seconds, of the instant [secs]
    seconds and [micros] microseconds after the epoch. *)
Definition localtime (utc_offset : Z → Z) (secs micros : Z) : datetime :=
  let local := secs + utc_offset secs in
  let days := local / 86400 in
  let sod := local mod 86400 in
  let '(y, m, d) := civil_from_days days in
  Datetime y m d (sod / 3600) (sod mod 3600 / 60) (sod mod 60) micros.

(** *** Python floats

    A Python float is an IEEE 754 binary64 number; the operations are those
    of the Standard Library's specification of binary floating point, at
    precision 53 and maximal exponent 1024. *)

(** [float(n)] for an integer [n]. *)
Definition b64_of_Z (n : Z) : spec_float := binary_normalize 53 1024 n 0 false.

Definition b64_div (x y : spec_float) : spec_float := SFdiv 53 1024 x y.
Definition b64_mul (x y : spec_float) : spec_float := SFmul 53 1024 x y.

(** The integer nearest to [n / 2^k], ties going to the even one, for
    [0 ≤ n] and [0 ≤ k]. *)
Definition round_half_even_shift (n k : Z) : Z :=
  let q := n / 2 ^ k in
  let r := n mod 2 ^ k in
  match 2 * r ?= 2 ^ k with
  | Lt => q
  | Gt => q + 1
  | Eq => if Z.even q then q else q + 1
  end.

(** How [datetime.fromtimestamp] splits a float into whole seconds and
    microseconds: the fractional part ([modf]) is multiplied by 10^6 in
    binary64 and rounded half to even, and a result of 10^6 or below 0 is
    carried into the seconds.  [None] for an infinity or a NaN. *)
Definition timeval_of_double (d : spec_float) : option (Z * Z) :=
  match d with
  | S754_zero _ => Some (0, 0)
  | S754_finite s m e =>
      let m := Zpos m in
      let intpart := if 0 <=? e then m * 2 ^ e else m / 2 ^ (- e) in
      let fracpart := if 0 <=? e then 0 else m mod 2 ^ (- e) in
      let floatpart := binary_normalize 53 1024 fracpart e false in
      let rounded :=
        match b64_mul floatpart (b64_of_Z 1000000) with
        | S754_zero _ => Some 0
        | S754_finite _ m' e' =>
            Some (if 0 <=? e' then Zpos m' * 2 ^ e'
                  else round_half_even_shift (Zpos m') (- e'))
        | _ => None
        end in
      match rounded with
      | None => None
      | Some us =>
          let intpart := if s then - intpart else intpart in
          let us := if s then - us else us in
          if 1000000 <=? us then Some (intpart + 1, us - 1000000)
          else if us <? 0 then Some (intpart - 1, us + 1000000)
          else Some (intpart, us)
      end
  | _ => None
  end.

(** A [datetime] holds years 1 to 9999 only. *)
Definition year_in_range (t : datetime) : bool :=
  (1 <=? dt_year t) && (dt_year t <=? 9999).

(** [datetime.fromtimestamp(d)]: the naive local date and time of the
    instant [d] seconds after the epoch.  [None] when it raises: the float
    is not finite, or the local year, or the local year one day earlier
    (which the function also computes, to tell a repeated local hour), is
    not a year a [datetime] holds. *)
Definition fromtimestamp (utc_offset : Z → Z) (d : spec_float)
    : option datetime :=
  match timeval_of_double d with
  | None => None
  | Some (secs, micros) =>
      let t := localtime utc_offset secs micros in
      if year_in_range t && year_in_range (localtime utc_offset (secs - 86400) 0)
      then Some t else None
  end.

(** The engine's calendar functions on a timestamp column. *)
Definition hour (t : datetime) : Z := dt_hour t.
Definition dayofmonth (t : datetime) : Z := dt_day t.
Definition month (t : datetime) : Z := dt_month t.
Definition year (t : datetime) : Z := dt_year t.

(** [dayofweek]: 1 = Sunday, ..., 7 = Saturday. *)
Definition dayofweek (t : datetime) : Z :=
  (days_from_civil (dt_year t) (dt_month t) (dt_day t) + 4) mod 7 + 1.

(** [weekofyear]: the ISO 8601 week number; a week belongs to the year of
    its Thursday. *)
Definition weekofyear (t : datetime) : Z :=
  let days := days_from_civil (dt_year t) (dt_month t) (dt_day t) in
  let thursday := days - (days + 3) mod 7 + 3 in
  let '(y, _, _) := civil_from_days thursday in
  (thursday - days_from_civil y 1 1) / 7 + 1.

(** ** Input records *)

(** One song-catalog JSON record (the columns the job uses). *)
Record song_record := SongRecord {
  sr_song_id : option string;
  sr_title : option string;
  sr_artist_id : option string;
  sr_year : option Z;
  sr_duration : option double;
  sr_artist_name : option string;
  sr_artist_location : option string;
  sr_artist_latitude : option double;
  sr_artist_longitude : option double
}.

(** One event-log JSON record (the columns the job uses). *)
Record event := Event {
  ev_userId : option string;
  ev_firstName : option string;
  ev_lastName : option string;
  ev_gender : option string;
  ev_level : option string;
  ev_page : option string;
  ev_ts : option Z;
  ev_song : option string;
  ev_artist : option string;
  ev_sessionId : option Z;
  ev_location : option string;
  ev_userAgent : option string
}.

(** An event row after [withColumn('timestamp', get_timestamp(df.ts))]. *)
Record event_ts := EventTs {
  ets_event : event;
  ets_timestamp : datetime
}.

(** ** Output rows *)

Record songs_row := SongsRow {
  so_song_id : option string;
  so_title : option string;
  so_artist_id : option string;
  so_year : option Z;
  so_duration : option double
}.

Record artists_row := ArtistsRow {
  ar_artist_id : option string;
  ar_artist_name : option string;
  ar_artist_location : option string;
  ar_artist_latitude : option double;
  ar_artist_longitude : option double
}.

Record users_row := UsersRow {
  us_user_id : option string;
  us_first_name : option string;
  us_last_name : option string;
  us_gender : option string;
  us_level : option string
}.

Record time_row := TimeRow {
  ti_ts_key : option Z;
  ti_start_time : datetime;
  ti_hour : Z;
  ti_day : Z;
  ti_week : Z;
  ti_month : Z;
  ti_year : Z;
  ti_weekday : Z
}.

Record songplays_row := SongplaysRow {
  sp_ts_key : option Z;
  sp_start_time : datetime;
  sp_user_id : option string;
  sp_level : option string;
  sp_song_id : option string;
  sp_artist_id : option string;
  sp_session_id : option Z;
  sp_location : option string;
  sp_user_agent : option string
}.

#[global] Instance song_record_eq_dec : EqDecision song_record.
Proof. solve_decision. Defined.
#[global] Instance event_eq_dec : EqDecision event.
Proof. solve_decision. Defined.
#[global] Instance event_ts_eq_dec : EqDecision event_ts.
Proof. solve_decision. Defined.
#[global] Instance songs_row_eq_dec : EqDecision songs_row.
Proof. solve_decision. Defined.
#[global] Instance artists_row_eq_dec : EqDecision artists_row.
Proof. solve_decision. Defined.
#[global] Instance users_row_eq_dec : EqDecision users_row.
Proof. solve_decision. Defined.
#[global] Instance time_row_eq_dec : EqDecision time_row.
Proof. solve_decision. Defined.
#[global] Instance songplays_row_eq_dec : EqDecision songplays_row.
Proof. solve_decision. Defined.

(** What a storage path holds: the rows of the JSON files a pattern selects,
    or a table written as parquet. *)
Inductive dataset :=
  | SongJson (rows : list song_record)
  | LogJson (rows : list event)
  | SongsParquet (rows : list songs_row)
  | ArtistsParquet (rows : list artists_row)
  | UsersParquet (rows : list users_row)
  | TimeParquet (rows : list time_row)
  | SongplaysParquet (rows : list songplays_row).

(** ** The song-catalog tables (process_song_data) *)

Definition songs_select (r : song_record) : songs_row :=
  SongsRow (sr_song_id r) (sr_title r) (sr_artist_id r) (sr_year r)
           (sr_duration r).

Definition songs_table (df : list song_record) : list songs_row :=
  distinct (df_select songs_select df).

Definition artists_select (r : song_record) : artists_row :=
  ArtistsRow (sr_artist_id r) (sr_artist_name r) (sr_artist_location r)
             (sr_artist_latitude r) (sr_artist_longitude r).

Definition artists_table (df : list song_record) : list artists_row :=
  distinct (df_select artists_select df).

(** ** The event-log tables (process_log_data) *)

(** [df.filter(col('page') == 'NextSong')] *)
Definition page_is_NextSong (e : event) : option bool :=
  sql_eq (ev_page e) (Some "NextSong"%string).

Definition filter_NextSong (df : list event) : list event :=
  df_filter page_is_NextSong df.

Definition users_select (e : event) : users_row :=
  UsersRow (ev_userId e) (ev_firstName e) (ev_lastName e) (ev_gender e)
           (ev_level e).

Definition users_table (df : list event) : list users_row :=
  distinct (df_select users_select df).

Section Zone.
(** The rule of the local time zone of the machine that runs the job, which
    the Python worker and the engine session both follow: seconds to add to
    UTC at a given instant. *)
Variable utc_offset : Z → Z.

(** [lambda x: datetime.fromtimestamp(x / 1000.0)].  [None] is the lambda
    raising: a NULL [ts] reaches it as Python's None, and None / 1000.0 is
    a TypeError; an integer too large for a float is an OverflowError; and
    [datetime.fromtimestamp] raises as described above. *)
Definition get_timestamp (x : option Z) : option datetime :=
  match x with
  | None => None
  | Some ms => fromtimestamp utc_offset (b64_div (b64_of_Z ms) (b64_of_Z 1000))
  end.

(** The row-wise evaluation of the [timestamp] column. *)
Definition add_timestamp (e : event) : option event_ts :=
  t ← get_timestamp (ev_ts e); Some (EventTs e t).

(** [df.withColumn('timestamp', get_timestamp(df.ts))], evaluated by the
    action that first needs the column; [None] when the lambda raises on
    some row. *)
Definition with_timestamp (df : list event) : option (list event_ts) :=
  mapM add_timestamp df.
End Zone.

Definition time_select (r : event_ts) : time_row :=
  let t := ets_timestamp r in
  TimeRow (ev_ts (ets_event r)) t (hour t) (dayofmonth t) (weekofyear t)
          (month t) (year t) (dayofweek t).

Definition time_table (df : list event_ts) : list time_row :=
  distinct (df_select time_select df).

(** [ON events.song = songs.title AND events.artist = songs.artist_name] *)
Definition songplays_on (e : event_ts) (s : song_record) : option bool :=
  sql_and (sql_eq (ev_song (ets_event e)) (sr_title s))
          (sql_eq (ev_artist (ets_event e)) (sr_artist_name s)).

Definition songplays_select (p : event_ts * option song_record)
    : songplays_row :=
  let e := ets_event p.1 in
  SongplaysRow (ev_ts e) (ets_timestamp p.1) (ev_userId e) (ev_level e)
               (p.2 ≫= sr_song_id) (p.2 ≫= sr_artist_id)
               (ev_sessionId e) (ev_location e) (ev_userAgent e).

Definition songplays_table (events : list event_ts)
    (songs : list song_record) : list songplays_row :=
  df_select songplays_select (left_join songplays_on events songs).

(** ** The process: state, errors, effects *)

Inductive error :=
  | NoSectionError (section : string)
  | NoOptionError (option section : string)
  | InterpolationSyntaxError (option section : string)
  | InterpolationMissingOptionError (option section reference : string)
  | InterpolationDepthError (option section : string)
  | PathDoesNotExist (path : string)
  | CannotResolveColumns (path : string)
  | TableOrViewNotFound (name : string)
  | PathAlreadyExists (path : string)
  | IncompatibleAppend (path : string)
  | PythonException.

(** The errors of the configuration parser ([configparser.Error]). *)
Definition is_config_error (e : error) : bool :=
  match e with
  | NoSectionError _ | NoOptionError _ _
  | InterpolationSyntaxError _ _ | InterpolationMissingOptionError _ _ _
  | InterpolationDepthError _ _ => true
  | _ => false
  end.

Inductive result (A : Type) :=
  | Ok (a : A)
  | Err (e : error).
Arguments Ok {A} a.
Arguments Err {A} e.

(** A [configparser.ConfigParser], and also the parsed content of an INI
    file: the DEFAULT section and the named sections, option names in the
    normal form [optionxform] gives them. *)
Record config_parser := ConfigParser {
  cp_defaults : gmap string string;
  cp_sections : gmap string (gmap string string)
}.

Record spark_session := SparkSession {
  session_handle : nat;
  session_conf : gmap string string
}.

(** What a temporary view of the engine session stands for: a dataframe as
    loaded, or the retained events with their [timestamp] column, which is
    computed only when an action needs it. *)
Inductive view :=
  | LoadedView (d : dataset)
  | TimestampedEvents (df : list event).

(** The process.  [temp_views] are the temporary views registered in the
    engine session (there is one session per process); [adaptive] tells
    whether the engine runs a query before the write that consumes it
    touches the target path (adaptive query execution), or only after the
    target path has been cleared. *)
Record process := Process {
  local_files : gmap string config_parser;
  environ : gmap string string;
  active_session : option spark_session;
  next_handle : nat;
  s3 : gmap string dataset;
  loads : list string;
  temp_views : gmap string view;
  adaptive : bool
}.

Definition set_environ (f : gmap string string → gmap string string)
    (st : process) : process :=
  Process (local_files st) (f (environ st)) (active_session st)
          (next_handle st) (s3 st) (loads st) (temp_views st) (adaptive st).

Definition set_session (s : option spark_session) (n : nat)
    (st : process) : process :=
  Process (local_files st) (environ st) s n (s3 st) (loads st)
          (temp_views st) (adaptive st).

Definition set_s3 (f : gmap string dataset → gmap string dataset)
    (st : process) : process :=
  Process (local_files st) (environ st) (active_session st)
          (next_handle st) (f (s3 st)) (loads st) (temp_views st)
          (adaptive st).

Definition add_load (path : string) (st : process) : process :=
  Process (local_files st) (environ st) (active_session st)
          (next_handle st) (s3 st) (loads st ++ [path]) (temp_views st)
          (adaptive st).

Definition set_views (f : gmap string view → gmap string view)
    (st : process) : process :=
  Process (local_files st) (environ st) (active_session st)
          (next_handle st) (s3 st) (loads st) (f (temp_views st))
          (adaptive st).

(** Computations that read and change the process and may raise. *)
Definition M (A : Type) : Type := process → process * result A.

#[global] Instance M_ret : MRet M := λ A a st, (st, Ok a).

#[global] Instance M_bind : MBind M := λ A B f m st,
  match m st with
  | (st', Ok a) => f a st'
  | (st', Err e) => (st', Err e)
  end.

Definition raise {A} (e : error) : M A := λ st, (st, Err e).

(** The outcome of a call that does not touch the process. *)
Definition lift_result {A} (r : result A) : M A := λ st, (st, r).
Definition get_state : M process := λ st, (st, Ok st).
Definition modify (f : process → process) : M unit := λ st, (f st, Ok tt).

(** ** Configuration (module level, lines 10-14) *)

Definition ascii_lower (c : Ascii.ascii) : Ascii.ascii :=
  let n := Ascii.nat_of_ascii c in
  if ((65 <=? n) && (n <=? 90))%nat then Ascii.ascii_of_nat (n + 32) else c.

(** [ConfigParser.optionxform]: option names are lower-cased. *)
Fixpoint optionxform (s : string) : string :=
  match s with
  | EmptyString => EmptyString
  | String c s' => String (ascii_lower c) (optionxform s')
  end.

Definition ConfigParser_new : config_parser := ConfigParser ∅ ∅.

(** [config.read(filename)]: a file that cannot be opened is skipped
    silently; otherwise its content is merged into the parser. *)
Definition config_read (config : config_parser) (filename : string)
    : M config_parser :=
  st ← get_state;
  mret (match local_files st !! filename with
        | None => config
        | Some f =>
            ConfigParser (cp_defaults f ∪ cp_defaults config)
              (union_with (λ new old, Some (new ∪ old))
                 (cp_sections f) (cp_sections config))
        end).

Fixpoint has_percent (s : string) : bool :=
  match s with
  | EmptyString => false
  | String c s' =>
      if Ascii.eqb c "%"%char then true else has_percent s'
  end.

(** Where the scan of a value stands: in plain text, just after a [%],
    inside the name of a reference [%(name)s], or after its closing
    parenthesis. *)
Inductive interpolation_state :=
  | InText
  | AfterPercent
  | InName (name : string)
  | AfterName (name : string).

(** [BasicInterpolation._interpolate_some]: [%%] stands for [%];
    [%(name)s] stands for the value of option [name] in the section or in
    DEFAULT, itself interpolated by [nested] when it holds a [%]; any other
    use of [%] is a syntax error. *)
Fixpoint interpolate_some (nested : string → result string)
    (map : gmap string string) (option section : string)
    (state : interpolation_state) (rest : string) : result string :=
  match rest with
  | EmptyString =>
      match state with
      | InText => Ok EmptyString
      | _ => Err (InterpolationSyntaxError option section)
      end
  | String c rest' =>
      match state with
      | InText =>
          if Ascii.eqb c "%"%char then
            interpolate_some nested map option section AfterPercent rest'
          else
            match interpolate_some nested map option section InText rest' with
            | Ok r => Ok (String c r)
            | Err e => Err e
            end
      | AfterPercent =>
          if Ascii.eqb c "%"%char then
            match interpolate_some nested map option section InText rest' with
            | Ok r => Ok (String c r)
            | Err e => Err e
            end
          else if Ascii.eqb c "("%char then
            interpolate_some nested map option section
              (InName EmptyString) rest'
          else Err (InterpolationSyntaxError option section)
      | InName name =>
          if Ascii.eqb c ")"%char then
            match name with
            | EmptyString => Err (InterpolationSyntaxError option section)
            | _ =>
                interpolate_some nested map option section
                  (AfterName name) rest'
            end
          else
            interpolate_some nested map option section
              (InName (name +:+ String c EmptyString)) rest'
      | AfterName name =>
          if Ascii.eqb c "s"%char then
            match map !! optionxform name with
            | None =>
                Err (InterpolationMissingOptionError option section
                       (optionxform name))
            | Some v =>
                match (if has_percent v then nested v else Ok v) with
                | Err e => Err e
                | Ok v' =>
                    match interpolate_some nested map option section
                            InText rest' with
                    | Ok r => Ok (v' +:+ r)
                    | Err e => Err e
                    end
                end
            end
          else Err (InterpolationSyntaxError option section)
      end
  end.

(** Interpolation nests to a depth of [MAX_INTERPOLATION_DEPTH] = 10. *)
Fixpoint interpolate (depth_left : nat) (map : gmap string string)
    (option section : string) (value : string) : result string :=
  match depth_left with
  | O => Err (InterpolationDepthError option section)
  | S depth_left' =>
      interpolate_some (interpolate depth_left' map option section)
        map option section InText value
  end.

(** [BasicInterpolation.before_get] *)
Definition before_get (map : gmap string string) (option section : string)
    (value : string) : result string :=
  interpolate 10 map option section value.

(** [config.get(section, option)]: the section's own options shadow those
    of DEFAULT, and the value found is interpolated. *)
Definition config_get (config : config_parser) (section option : string)
    : result string :=
  match cp_sections config !! section with
  | None =>
      if decide (section = "DEFAULT"%string) then
        match cp_defaults config !! optionxform option with
        | Some v =>
            before_get (cp_defaults config) (optionxform option) section v
        | None => Err (NoOptionError (optionxform option) section)
        end
      else Err (NoSectionError section)
  | Some d =>
      match (d ∪ cp_defaults config) !! optionxform option with
      | Some v =>
          before_get (d ∪ cp_defaults config) (optionxform option) section v
      | None => Err (NoOptionError (optionxform option) section)
      end
  end.

(** [os.environ[key] = value] *)
Definition os_environ_set (key value : string) : M unit :=
  modify (set_environ <[key := value]>).

Definition module_init : M config_parser :=
  config ← config_read ConfigParser_new "dl.cfg";
  v ← lift_result (config_get config "AWS" "AWS_ACCESS_KEY_ID");
  os_environ_set "AWS_ACCESS_KEY_ID" v;;
  v ← lift_result (config_get config "AWS" "AWS_SECRET_ACCESS_KEY");
  os_environ_set "AWS_SECRET_ACCESS_KEY" v;;
  mret config.

(** ** The engine session *)

Definition set_options (options : list (string * string))
    (conf : gmap string string) : gmap string string :=
  foldl (λ c kv, <[kv.1 := kv.2]> c) conf options.

(** [SparkSession.builder.config(...).getOrCreate()]: the session of the
    process if there is one (the builder's options are applied to it),
    a new one otherwise.  The handle is what the caller holds. *)
Definition getOrCreate (options : list (string * string)) : M nat :=
  st ← get_state;
  match active_session st with
  | Some s =>
      modify (set_session
                (Some (SparkSession (session_handle s)
                         (set_options options (session_conf s))))
                (next_handle st));;
      mret (session_handle s)
  | None =>
      modify (set_session
                (Some (SparkSession (next_handle st) (set_options options ∅)))
                (S (next_handle st)));;
      mret (next_handle st)
  end.

Definition create_spark_session : M nat :=
  getOrCreate
    [("spark.jars.packages", "org.apache.hadoop:hadoop-aws:2.7.0")]%string.

(** ** Reading and writing storage *)

(** [spark.read.format('json').load(path)] *)
Definition spark_read_json (spark : nat) (path : string) : M dataset :=
  modify (add_load path);;
  st ← get_state;
  match s3 st !! path with
  | None => raise (PathDoesNotExist path)
  | Some d => mret d
  end.

(** Resolving the song-catalog columns against what was loaded.  The
    schema is inferred from the records: files with no record give a
    dataframe with no column, against which no column resolves. *)
Definition as_song_records (path : string) (d : dataset)
    : M (list song_record) :=
  match d with
  | SongJson (r :: rows) => mret (r :: rows)
  | _ => raise (CannotResolveColumns path)
  end.

(** Resolving the event columns against what was loaded. *)
Definition as_events (path : string) (d : dataset) : M (list event) :=
  match d with
  | LogJson (r :: rows) => mret (r :: rows)
  | _ => raise (CannotResolveColumns path)
  end.

Inductive save_mode := Overwrite | Append | Ignore | ErrorIfExists.

Definition append_rows (old new : dataset) : option dataset :=
  match old, new with
  | SongsParquet a, SongsParquet b => Some (SongsParquet (a ++ b))
  | ArtistsParquet a, ArtistsParquet b => Some (ArtistsParquet (a ++ b))
  | UsersParquet a, UsersParquet b => Some (UsersParquet (a ++ b))
  | TimeParquet a, TimeParquet b => Some (TimeParquet (a ++ b))
  | SongplaysParquet a, SongplaysParquet b => Some (SongplaysParquet (a ++ b))
  | _, _ => None
  end.

(** [table.write.parquet(path, mode=...)] *)
Definition write_parquet (table : dataset) (path : string) (mode : save_mode)
    : M unit :=
  st ← get_state;
  match mode, s3 st !! path with
  | Overwrite, _ | _, None => modify (set_s3 <[path := table]>)
  | Append, Some old =>
      match append_rows old table with
      | Some d => modify (set_s3 <[path := d]>)
      | None => raise (IncompatibleAppend path)
      end
  | Ignore, Some _ => mret tt
  | ErrorIfExists, Some _ => raise (PathAlreadyExists path)
  end.

(** Writing, with [mode='overwrite'], a table whose rows need the
    [timestamp] column: the write is the action that runs the Python lambda
    on every row.  If the lambda raises ([None]) the write fails; unless
    the engine is adaptive, it has by then cleared the target path. *)
Definition write_parquet_computed (table : option dataset) (path : string)
    : M unit :=
  match table with
  | Some t => write_parquet t path Overwrite
  | None =>
      st ← get_state;
      (if adaptive st then mret tt else modify (set_s3 (delete path)));;
      raise PythonException
  end.

(** [df.createOrReplaceTempView(name)] *)
Definition createOrReplaceTempView (v : view) (name : string) : M unit :=
  modify (set_views <[name := v]>).

(** The query of [spark.sql] (lines 127-141): the two views are looked up
    in the session and the columns resolved; the result is the pair of
    dataframes the join is computed from when it is written. *)
Definition spark_sql_songplays : M (list event * list song_record) :=
  st ← get_state;
  match temp_views st !! "events_table"%string with
  | None => raise (TableOrViewNotFound "events_table")
  | Some (LoadedView _) => raise (CannotResolveColumns "events_table")
  | Some (TimestampedEvents events) =>
      match temp_views st !! "songs_table"%string with
      | None => raise (TableOrViewNotFound "songs_table")
      | Some (TimestampedEvents _) =>
          raise (CannotResolveColumns "songs_table")
      | Some (LoadedView d) =>
          songs ← as_song_records "songs_table" d;
          mret (events, songs)
      end
  end.

(** ** The two transforms and the entry point *)

Section Job.
Variable utc_offset : Z → Z.

Definition process_song_data (spark : nat) (input_data output_data : string)
    : M unit :=
  let song_data := input_data +:+ "song_data/A/*/*/*.json" in
  d ← spark_read_json spark song_data;
  df ← as_song_records song_data d;
  write_parquet (SongsParquet (songs_table df))
                (output_data +:+ "songstables/") Overwrite;;
  write_parquet (ArtistsParquet (artists_table df))
                (output_data +:+ "artiststables/") Overwrite.

Definition process_log_data (spark : nat) (input_data output_data : string)
    : M unit :=
  let log_data := input_data +:+ "log_data/2018/11/*.json" in
  let song_data := input_data +:+ "song_data/A/*/*/*.json" in
  d ← spark_read_json spark log_data;
  df ← as_events log_data d;
  let df := filter_NextSong df in
  write_parquet (UsersParquet (users_table df))
                (output_data +:+ "userstables/") Overwrite;;
  createOrReplaceTempView (TimestampedEvents df) "events_table";;
  write_parquet_computed
    ((λ df, TimeParquet (time_table df)) <$> with_timestamp utc_offset df)
    (output_data +:+ "timetables/");;
  song_df ← spark_read_json spark song_data;
  createOrReplaceTempView (LoadedView song_df) "songs_table";;
  query ← spark_sql_songplays;
  write_parquet_computed
    ((λ df, SongplaysParquet (songplays_table df query.2))
       <$> with_timestamp utc_offset query.1)
    (output_data +:+ "songplays/").

Definition main : M unit :=
  spark ← create_spark_session;
  let input_data := "s3a://udacity-dend/"%string in
  let output_data := "s3a://dend-data-lake-p4/sparkify/"%string in
  process_song_data spark input_data output_data;;
  process_log_data spark input_data output_data.

(** Running the file as a program: the module-level statements, then
    [main()]. *)
Definition script : M unit :=
  module_init;; main.
End Job.

(** ** Auxiliary notions used in the statements *)

(** The catalog rows an event row is joined with. *)
Definition matching_songs (e : event_ts) (songs : list song_record)
    : list song_record :=
  List.filter (λ s, holds (songplays_on e s)) songs.

(** How many times a row occurs in a table. *)
Definition count_rows {A} `{EqDecision A} (r : A) (df : list A) : nat :=
  length (List.filter (λ x, bool_decide (x = r)) df).

(** [n] successive calls of [create_spark_session], collecting the handles. *)
Fixpoint repeat_create_spark_session (n : nat) : M (list nat) :=
  match n with
  | O => mret []
  | S n' =>
      h ← create_spark_session;
      hs ← repeat_create_spark_session n';
      mret (h :: hs)
  end.

(** A required option is absent when neither the AWS section nor DEFAULT
    gives it (in particular when there is no AWS section). *)
Definition key_absent (cfg : config_parser) (option : string) : Prop :=
  ∀ d, cp_sections cfg !! "AWS"%string = Some d →
       d !! optionxform option = None ∧
       cp_defaults cfg !! optionxform option = None.

(** The paths [main] reads and writes. *)
Local Abbreviation SONG_DATA := "s3a://udacity-dend/song_data/A/*/*/*.json"%string.
Local Abbreviation LOG_DATA := "s3a://udacity-dend/log_data/2018/11/*.json"%string.
Local Abbreviation SONGS_OUT :=
  "s3a://dend-data-lake-p4/sparkify/songstables/"%string.
Local Abbreviation ARTISTS_OUT :=
  "s3a://dend-data-lake-p4/sparkify/artiststables/"%string.
Local Abbreviation USERS_OUT :=
  "s3a://dend-data-lake-p4/sparkify/userstables/"%string.
Local Abbreviation TIME_OUT :=
  "s3a://dend-data-lake-p4/sparkify/timetables/"%string.
Local Abbreviation SONGPLAYS_OUT :=
  "s3a://dend-data-lake-p4/sparkify/songplays/"%string.

(** Stores that agree everywhere but at one path. *)
Definition agree_off (p : string) (m1 m2 : gmap string dataset) : Prop :=
  ∀ q, q ≠ p → m1 !! q = m2 !! q.

(** One run of the program in a fresh process over the given local files,
    inherited environment and object store, on an engine that is adaptive
    or not: the store it leaves and how it ended. *)
Definition run_job (utc_offset : Z → Z) (adaptive_engine : bool)
    (files : gmap string config_parser) (env : gmap string string)
    (store : gmap string dataset) : gmap string dataset * result unit :=
  let r := script utc_offset
             (Process files env None O store [] ∅ adaptive_engine) in
  (s3 r.1, r.2).

(** ** Sample data

    A small catalog and log, used to run the job on concrete inputs. *)

Definition utc : Z → Z := λ _, 0.

Definition song_x : song_record :=
  SongRecord (Some "S1") (Some "X") (Some "A1") (Some 2000) (Some 1234)
             (Some "ArtistA") None None None%string.

(** A second catalog entry for the same title and artist. *)
Definition song_x_reissue : song_record :=
  SongRecord (Some "S2") (Some "X") (Some "A1") (Some 2005) (Some 1234)
             (Some "ArtistA") None None None%string.

(** A catalog entry whose title is NULL. *)
Definition song_untitled : song_record :=
  SongRecord (Some "S3") None (Some "A1") (Some 2001) (Some 99)
             (Some "ArtistA") None None None%string.

Definition play_x : event :=
  Event (Some "7") (Some "Jo") (Some "Doe") (Some "F") (Some "free")
        (Some "NextSong") (Some 1542037200000) (Some "X") (Some "ArtistA")
        (Some 5) (Some "LA") (Some "UA")%string.

(** The same user a little later, on the paid level, playing a song the
    catalog does not have. *)
Definition play_y_paid : event :=
  Event (Some "7") (Some "Jo") (Some "Doe") (Some "F") (Some "paid")
        (Some "NextSong") (Some 1542037260500) (Some "Y") (Some "ArtistB")
        (Some 5) (Some "LA") (Some "UA")%string.

(** A play whose song title is NULL. *)
Definition play_untitled : event :=
  Event (Some "8") (Some "Al") (Some "Roe") (Some "M") (Some "free")
        (Some "NextSong") (Some 1542037200000) None (Some "ArtistA")
        (Some 6) (Some "NY") (Some "UA")%string.

Definition home_visit : event :=
  Event (Some "7") (Some "Jo") (Some "Doe") (Some "F") (Some "free")
        (Some "Home") (Some 1542037100000) None None
        (Some 5) (Some "LA") (Some "UA")%string.

Definition sample_log : list event := [play_x; home_visit; play_y_paid].

Definition at_2018_11_12_1540 : datetime := Datetime 2018 11 12 15 40 0 0.

Definition sample_df : list event_ts :=
  [EventTs play_x at_2018_11_12_1540;
   EventTs play_y_paid (Datetime 2018 11 12 15 41 0 500000)].

Definition sample_cfg : config_parser :=
  ConfigParser ∅
    {[ "AWS" := {[ "aws_access_key_id" := "AKIA";
                   "aws_secret_access_key" := "secret" ]} ]}%string.

Definition sample_store : gmap string dataset :=
  {[ "s3a://udacity-dend/song_data/A/*/*/*.json" := SongJson [song_x];
     "s3a://udacity-dend/log_data/2018/11/*.json" := LogJson sample_log
  ]}%string.

(** A process about to run the program, the configuration file in place. *)
Definition sample_process : process :=
  Process {[ "dl.cfg"%string := sample_cfg ]} ∅ None O sample_store [] ∅ true.

(** The same without the configuration file. *)
Definition unconfigured_process : process :=
  Process ∅ ∅ None O sample_store [] ∅ true.

(** A play whose [ts] is NULL. *)
Definition play_no_ts : event :=
  Event (Some "9") (Some "Di") (Some "Poe") (Some "F") (Some "free")
        (Some "NextSong") None (Some "X") (Some "ArtistA")
        (Some 7) (Some "SF") (Some "UA")%string.

(** The sample store with that play in the log, and stale time and
    songplays tables left by an earlier run. *)
Definition stale_store : gmap string dataset :=
  {[ "s3a://udacity-dend/song_data/A/*/*/*.json" := SongJson [song_x];
     "s3a://udacity-dend/log_data/2018/11/*.json" :=
       LogJson [play_x; play_no_ts];
     "s3a://dend-data-lake-p4/sparkify/timetables/" := TimeParquet [];
     "s3a://dend-data-lake-p4/sparkify/songplays/" := SongplaysParquet []
  ]}%string.

Definition stale_process : process :=
  Process {[ "dl.cfg"%string := sample_cfg ]} ∅ None O stale_store [] ∅ true.

(** The sample store with tables left by an earlier run over other
    inputs. *)
Definition rerun_store : gmap string dataset :=
  {[ "s3a://udacity-dend/song_data/A/*/*/*.json" := SongJson [song_x];
     "s3a://udacity-dend/log_data/2018/11/*.json" := LogJson sample_log;
     "s3a://dend-data-lake-p4/sparkify/userstables/" :=
       UsersParquet [UsersRow (Some "1") None None None (Some "paid")];
     "s3a://dend-data-lake-p4/sparkify/songplays/" :=
       SongplaysParquet
         [SongplaysRow (Some 1) (Datetime 1970 1 1 0 0 0 1000) (Some "1")
                       (Some "paid") None None None None None]
  ]}%string.

(** A configuration file that gives the access key id only. *)
Definition half_cfg : config_parser :=
  ConfigParser ∅ {[ "AWS" := {[ "aws_access_key_id" := "AKIA" ]} ]}%string.

Definition half_configured_process : process :=
  Process {[ "dl.cfg"%string := half_cfg ]} ∅ None O sample_store [] ∅ true.

(** A zone that sets its clocks back one hour at 2018-11-04 06:00 UTC
    (from four to five hours behind UTC). *)
Definition clocks_set_back : Z → Z :=
  λ secs, if secs <? 1541311200 then -14400 else -18000.

(** A store whose catalog lists the song of [play_x] twice. *)
Definition reissue_store : gmap string dataset :=
  {[ "in/song_data/A/*/*/*.json" := SongJson [song_x; song_x_reissue];
     "in/log_data/2018/11/*.json" := LogJson [play_x] ]}%string.

Definition reissue_process : process :=
  Process ∅ ∅ None O reissue_store [] ∅ true.

(** ** Properties of the dataframe operators *)

Section Operators.
Context {A : Type} `{EqDecision A}.

Lemma count_rows_cons (r x : A) (l : list A) :
  count_rows r (x :: l)
  = ((if decide (x = r) then 1 else 0) + count_rows r l)%nat.
Proof.
  unfold count_rows. simpl.
  destruct (decide (x = r)) as [Heq|Hne].
  - by rewrite (bool_decide_eq_true_2 _ Heq).
  - by rewrite (bool_decide_eq_false_2 _ Hne).
Qed.

Lemma count_rows_absent (r : A) (l : list A) :
  r ∉ l → count_rows r l = 0%nat.
Proof.
  induction l as [|x l IH]; intros Hr; [done|].
  rewrite count_rows_cons. apply not_elem_of_cons in Hr as [Hne Hl].
  rewrite decide_False by congruence. by rewrite IH.
Qed.

Lemma count_rows_NoDup (r : A) (l : list A) :
  NoDup l → r ∈ l → count_rows r l = 1%nat.
Proof.
  induction 1 as [|x l Hx Hl IH]; intros Hr.
  - by apply elem_of_nil in Hr.
  - rewrite count_rows_cons. destruct (decide (x = r)) as [->|Hne].
    + by rewrite count_rows_absent.
    + apply elem_of_cons in Hr as [?|Hr]; [congruence|]. by rewrite IH.
Qed.

Lemma count_rows_distinct (r : A) (df : list A) :
  count_rows r (distinct df) = if decide (r ∈ df) then 1%nat else 0%nat.
Proof.
  unfold distinct. destruct (decide (r ∈ df)) as [Hin|Hout].
  - apply count_rows_NoDup; [apply NoDup_remove_dups|].
    by apply elem_of_remove_dups.
  - apply count_rows_absent. by rewrite elem_of_remove_dups.
Qed.

(** Deduplicating full rows amounts to deduplicating a key column when,
    within the table, rows agree as soon as their keys agree. *)
Lemma distinct_by_key {B K : Type} `{EqDecision B} `{EqDecision K}
    (row : A → B) (key : A → K) (key_of : B → K) (df : list A) :
  (∀ x, key_of (row x) = key x) →
  (∀ x y, x ∈ df → y ∈ df → key x = key y → row x = row y) →
  map key_of (distinct (map row df)) = distinct (map key df).
Proof.
  intros Hkey. unfold distinct.
  induction df as [|x df IH]; intros Hfun; [done|].
  simpl.
  assert (Hmem : row x ∈ map row df ↔ key x ∈ map key df).
  { split; intros Hin; apply list_elem_of_fmap in Hin as (y & Hy & Hyin).
    - apply list_elem_of_fmap. exists y. split; [|done].
      by rewrite <- !Hkey, Hy.
    - apply list_elem_of_fmap. exists y. split; [|done].
      apply Hfun; [left | by right | done]. }
  assert (Hrec : map key_of (remove_dups (map row df))
                 = remove_dups (map key df)).
  { apply IH. intros a b Ha Hb. apply Hfun; by right. }
  destruct (decide_rel elem_of (row x) (map row df)) as [Hin|Hout];
    destruct (decide_rel elem_of (key x) (map key df)) as [Hin'|Hout'];
    try (exfalso; tauto).
  - done.
  - simpl. by rewrite Hkey, Hrec.
Qed.
End Operators.

Lemma left_join_app {A B} (on : A → B → option bool)
    (l1 l2 : list A) (right : list B) :
  left_join on (l1 ++ l2) right
  = left_join on l1 right ++ left_join on l2 right.
Proof. unfold left_join. apply flat_map_app. Qed.

Lemma songplays_table_app (l1 l2 : list event_ts) (songs : list song_record) :
  songplays_table (l1 ++ l2) songs
  = songplays_table l1 songs ++ songplays_table l2 songs.
Proof.
  unfold songplays_table, df_select. by rewrite left_join_app, map_app.
Qed.

Lemma songplays_table_cons (e : event_ts) (l : list event_ts)
    (songs : list song_record) :
  songplays_table (e :: l) songs
  = songplays_table [e] songs ++ songplays_table l songs.
Proof. apply (songplays_table_app [e] l). Qed.

(** The rows one event contributes: one per matching catalog row, or the
    single row with a NULL song when there is none. *)
Lemma songplays_table_single (e : event_ts) (songs : list song_record) :
  songplays_table [e] songs
  = match matching_songs e songs with
    | [] => [songplays_select (e, None)]
    | ms => map (λ s, songplays_select (e, Some s)) ms
    end.
Proof.
  unfold songplays_table, df_select, left_join, matching_songs. simpl.
  rewrite app_nil_r.
  destruct (List.filter _ songs) as [|s ms]; [done|].
  simpl. f_equal. apply map_map.
Qed.

Lemma songplays_table_length (events : list event_ts)
    (songs : list song_record) :
  length (songplays_table events songs)
  = sum_list_with (λ e, Nat.max 1 (length (matching_songs e songs))) events.
Proof.
  induction events as [|e events IH]; [done|].
  rewrite songplays_table_cons, length_app, IH, songplays_table_single.
  simpl. f_equal.
  destruct (matching_songs e songs) as [|s ms]; [done|].
  change (length (map (λ s0, songplays_select (e, Some s0)) (s :: ms))
          = S (length ms)).
  by rewrite length_map.
Qed.

(** ** Properties of the timestamp column *)

Lemma add_timestamp_event (zone : Z → Z) (e : event) (r : event_ts) :
  add_timestamp zone e = Some r → ets_event r = e.
Proof.
  unfold add_timestamp. destruct (get_timestamp zone (ev_ts e)); simpl; [|done].
  by intros [= <-].
Qed.

Lemma add_timestamp_ts (zone : Z → Z) (e : event) (r : event_ts) :
  add_timestamp zone e = Some r →
  get_timestamp zone (ev_ts (ets_event r)) = Some (ets_timestamp r).
Proof.
  unfold add_timestamp.
  destruct (get_timestamp zone (ev_ts e)) eqn:Ht; simpl; [|done].
  by intros [= <-].
Qed.

Lemma with_timestamp_events (zone : Z → Z) (df : list event)
    (df' : list event_ts) :
  with_timestamp zone df = Some df' → map ets_event df' = df.
Proof.
  unfold with_timestamp. intros H%mapM_Some_1.
  induction H as [|e r df df' Hr _ IH]; [done|].
  simpl. by rewrite IH, (add_timestamp_event _ _ _ Hr).
Qed.

Lemma with_timestamp_elem (zone : Z → Z) (df : list event)
    (df' : list event_ts) (r : event_ts) :
  with_timestamp zone df = Some df' → r ∈ df' →
  get_timestamp zone (ev_ts (ets_event r)) = Some (ets_timestamp r).
Proof.
  unfold with_timestamp. intros H%mapM_Some_1 Hr.
  induction H as [|e r' df df' Hr' _ IH]; [by apply elem_of_nil in Hr|].
  apply elem_of_cons in Hr as [->|Hr]; [|by apply IH].
  by eapply add_timestamp_ts.
Qed.

(** The timestamp column is computed exactly when the lambda raises on no
    row; in particular no row then has a NULL [ts]. *)
Lemma with_timestamp_is_Some (zone : Z → Z) (df : list event) :
  is_Some (with_timestamp zone df)
  ↔ Forall (λ e, is_Some (get_timestamp zone (ev_ts e))) df.
Proof.
  unfold with_timestamp. rewrite mapM_is_Some. apply Forall_iff.
  intros e. unfold compose, add_timestamp.
  destruct (get_timestamp zone (ev_ts e)); simpl; split; intros [x Hx];
    by (done || eexists).
Qed.

Lemma with_timestamp_ts_not_null (zone : Z → Z) (df : list event) :
  is_Some (with_timestamp zone df) → Forall (λ e, is_Some (ev_ts e)) df.
Proof.
  rewrite with_timestamp_is_Some. intros H. eapply Forall_impl; [exact H|].
  intros e [t Ht]. destruct (ev_ts e); [by eexists | done].
Qed.

Lemma time_select_of_ts (zone : Z → Z) (r1 r2 : event_ts) :
  get_timestamp zone (ev_ts (ets_event r1)) = Some (ets_timestamp r1) →
  get_timestamp zone (ev_ts (ets_event r2)) = Some (ets_timestamp r2) →
  ev_ts (ets_event r1) = ev_ts (ets_event r2) →
  time_select r1 = time_select r2.
Proof.
  intros H1 H2 Heq. rewrite Heq, H2 in H1. injection H1 as H1.
  unfold time_select. by rewrite Heq, H1.
Qed.

(** ** The calendar *)

Lemma civil_from_days_range (z y m d : Z) :
  civil_from_days z = (y, m, d) → 1 ≤ m ≤ 12 ∧ 1 ≤ d ≤ 31.
Proof.
  unfold civil_from_days. cbv zeta.
  set (z' := z + 719468).
  set (era := z' / 146097).
  set (doe := z' - era * 146097).
  assert (Hdoe : 0 ≤ doe < 146097).
  { subst doe era. pose proof (Z.div_mod z' 146097 ltac:(lia)).
    pose proof (Z.mod_pos_bound z' 146097 ltac:(lia)). lia. }
  clearbody doe. clearbody era. clear z z'.
  set (yoe := (doe - doe / 1460 + doe / 36524 - doe / 146096) / 365).
  set (doy := doe - (365 * yoe + yoe / 4 - yoe / 100)).
  assert (Hdoy : 0 ≤ doy ≤ 365).
  { subst doy yoe. Z.div_mod_to_equations; lia. }
  clearbody doy. clearbody yoe. clear doe Hdoe.
  set (mp := (5 * doy + 2) / 153).
  assert (Hmp : 0 ≤ mp ≤ 11) by (subst mp; Z.div_mod_to_equations; lia).
  assert (Hd : 1 ≤ doy - (153 * mp + 2) / 5 + 1 ≤ 31).
  { subst mp. Z.div_mod_to_equations; lia. }
  clearbody mp. intros [= _ <- <-].
  destruct (mp <? 10) eqn:Hlt;
    [apply Z.ltb_lt in Hlt | apply Z.ltb_ge in Hlt]; lia.
Qed.

(** The day number of a date read off a day number is that day number. *)
Lemma days_from_civil_from_days (z y m d : Z) :
  civil_from_days z = (y, m, d) → days_from_civil y m d = z.
Proof.
  unfold civil_from_days, days_from_civil. cbv zeta.
  set (z' := z + 719468).
  set (era := z' / 146097).
  set (doe := z' - era * 146097).
  assert (Hdoe : 0 ≤ doe < 146097).
  { subst doe era. pose proof (Z.div_mod z' 146097 ltac:(lia)).
    pose proof (Z.mod_pos_bound z' 146097 ltac:(lia)). lia. }
  assert (Hz : z = era * 146097 + doe - 719468) by (subst doe z'; lia).
  clearbody doe. clearbody era. clear z'. subst z.
  set (yoe := (doe - doe / 1460 + doe / 36524 - doe / 146096) / 365).
  assert (Hyoe : 0 ≤ yoe ≤ 399) by (subst yoe; Z.div_mod_to_equations; lia).
  set (doy := doe - (365 * yoe + yoe / 4 - yoe / 100)).
  assert (Hdoy : 0 ≤ doy ≤ 365).
  { subst doy yoe. Z.div_mod_to_equations; lia. }
  assert (Hdoe' : doe = yoe * 365 + yoe / 4 - yoe / 100 + doy)
    by (subst doy; lia).
  clearbody doy. clearbody yoe. subst doe.
  set (mp := (5 * doy + 2) / 153).
  assert (Hmp : 0 ≤ mp ≤ 11) by (subst mp; Z.div_mod_to_equations; lia).
  set (d0 := doy - (153 * mp + 2) / 5 + 1).
  assert (Hdd : doy = (153 * mp + 2) / 5 + d0 - 1) by (subst d0; lia).
  clearbody d0. clearbody mp. intros [= <- <- <-].
  destruct (mp <? 10) eqn:Hlt;
    [apply Z.ltb_lt in Hlt | apply Z.ltb_ge in Hlt].
  - replace (mp + 3 <=? 2) with false by (symmetry; apply Z.leb_gt; lia).
    replace (2 <? mp + 3) with true by (symmetry; apply Z.ltb_lt; lia).
    replace (mp + 3 - 3) with mp by lia.
    replace ((yoe + era * 400) / 400) with era
      by (Z.div_mod_to_equations; lia).
    rewrite Hdd. replace (yoe + era * 400 - era * 400) with yoe by lia. lia.
  - replace (mp - 9 <=? 2) with true by (symmetry; apply Z.leb_le; lia).
    replace (2 <? mp - 9) with false by (symmetry; apply Z.ltb_ge; lia).
    replace (mp - 9 + 9) with mp by lia.
    replace (yoe + era * 400 + 1 - 1) with (yoe + era * 400) by lia.
    replace ((yoe + era * 400) / 400) with era
      by (Z.div_mod_to_equations; lia).
    rewrite Hdd. replace (yoe + era * 400 - era * 400) with yoe by lia. lia.
Qed.

(** A day is at most 365 days after the first of January of its year. *)
Lemma day_of_year_range (z y m d : Z) :
  civil_from_days z = (y, m, d) → 0 ≤ z - days_from_civil y 1 1 ≤ 365.
Proof.
  intros Hciv.
  pose proof (civil_from_days_range _ _ _ _ Hciv) as [Hm Hd].
  rewrite <- (days_from_civil_from_days _ _ _ _ Hciv). clear Hciv z.
  unfold days_from_civil. cbv zeta.
  change (1 <=? 2) with true. change (2 <? 1) with false. cbv iota.
  destruct (m <=? 2) eqn:Hle;
    [apply Z.leb_le in Hle | apply Z.leb_gt in Hle].
  - replace (2 <? m) with false by (symmetry; apply Z.ltb_ge; lia).
    assert (m = 1 ∨ m = 2) as [-> | ->] by lia.
    + change ((153 * (1 + 9) + 2) / 5) with 306. lia.
    + change ((153 * (1 + 9) + 2) / 5) with 306.
      change ((153 * (2 + 9) + 2) / 5) with 337. lia.
  - replace (2 <? m) with true by (symmetry; apply Z.ltb_lt; lia).
    assert (Hmp : 0 ≤ (153 * (m - 3) + 2) / 5 + d - 1 ≤ 305).
    { Z.div_mod_to_equations; lia. }
    set (doy := (153 * (m - 3) + 2) / 5 + d - 1) in *. clearbody doy.
    change ((153 * (1 + 9) + 2) / 5 + 1 - 1) with 306.
    Z.div_mod_to_equations; lia.
Qed.

(** The fields of a local date and time put together again give the
    local instant they were read off. *)
Lemma localtime_instant (zone : Z → Z) (secs micros : Z) :
  let t := localtime zone secs micros in
  days_from_civil (dt_year t) (dt_month t) (dt_day t) * 86400
  + dt_hour t * 3600 + dt_minute t * 60 + dt_second t
  = secs + zone secs
  ∧ dt_microsecond t = micros.
Proof.
  unfold localtime. cbv zeta.
  destruct (civil_from_days ((secs + zone secs) / 86400)) as [[y m] d]
    eqn:Hciv.
  cbn [dt_year dt_month dt_day dt_hour dt_minute dt_second dt_microsecond].
  rewrite (days_from_civil_from_days _ _ _ _ Hciv). split; [|done].
  pose proof (Z.mod_pos_bound (secs + zone secs) 86400 ltac:(lia)).
  Z.div_mod_to_equations; lia.
Qed.

Lemma get_timestamp_Some (zone : Z → Z) (x : option Z) (t : datetime) :
  get_timestamp zone x = Some t →
  ∃ ms secs micros,
    x = Some ms
    ∧ timeval_of_double (b64_div (b64_of_Z ms) (b64_of_Z 1000))
      = Some (secs, micros)
    ∧ t = localtime zone secs micros
    ∧ 1 ≤ dt_year t ≤ 9999.
Proof.
  unfold get_timestamp, fromtimestamp. destruct x as [ms|]; [|done].
  destruct (timeval_of_double _) as [[secs micros]|] eqn:Htv; [|done].
  destruct (year_in_range (localtime zone secs micros)) eqn:Hyear;
    simpl; [|done].
  destruct (year_in_range (localtime zone (secs - 86400) 0)); [|done].
  intros [= <-]. exists ms, secs, micros.
  unfold year_in_range in Hyear. apply andb_prop in Hyear as [H1 H2].
  apply Z.leb_le in H1, H2. done.
Qed.

(** ** The songplays join *)

(** C1 (as stated) fails: with a catalog that lists the played title and
    artist twice, the one retained event yields two songplays rows. *)
Lemma songplays_count_counterexample :
  let r := process_log_data utc 0 "in/" "out/" reissue_process in
  r.2 = Ok tt ∧
  filter_NextSong [play_x] = [play_x] ∧
  ∃ rows, s3 r.1 !! "out/songplays/"%string = Some (SongplaysParquet rows) ∧
          length rows = 2%nat ∧
          count_rows (songplays_select
                        (EventTs play_x at_2018_11_12_1540, Some song_x)) rows
            = 1%nat ∧
          count_rows (songplays_select
                        (EventTs play_x at_2018_11_12_1540, Some song_x_reissue))
                     rows = 1%nat.
Proof.
  vm_compute. split; [done|]. split; [done|]. eexists. split; [done|]. done.
Qed.

(** C1 (amended): every row of the filtered event set yields one songplays
    row per catalog row it matches on title and artist name, and one row,
    with NULL song_id and artist_id, when it matches none; so
    count(songplays) is at least count(filtered events), and when no
    retained event matches more than one catalog row every event yields
    exactly one row and the counts are equal. *)
Theorem songplays_one_row_per_event (zone : Z → Z) (log : list event)
    (df : list event_ts) (songs : list song_record) :
  with_timestamp zone (filter_NextSong log) = Some df →
  map ets_event df = filter_NextSong log
  ∧ songplays_table df songs
    = flat_map (λ e, match matching_songs e songs with
                     | [] => [songplays_select (e, None)]
                     | ms => map (λ s, songplays_select (e, Some s)) ms
                     end) df
  ∧ length (songplays_table df songs)
    = sum_list_with (λ e, Nat.max 1 (length (matching_songs e songs))) df
  ∧ (length (filter_NextSong log) ≤ length (songplays_table df songs))%nat
  ∧ (Forall (λ e, (length (matching_songs e songs) ≤ 1)%nat) df →
     songplays_table df songs
     = map (λ e, songplays_select (e, head (matching_songs e songs))) df
     ∧ length (songplays_table df songs) = length (filter_NextSong log))
  ∧ Forall (λ e, matching_songs e songs = [] →
               count_rows (songplays_select (e, None))
                          (songplays_table [e] songs) = 1%nat
               ∧ sp_song_id (songplays_select (e, None)) = None
               ∧ sp_artist_id (songplays_select (e, None)) = None) df.
Proof.
  intros Hdf.
  pose proof (with_timestamp_events _ _ _ Hdf) as Hevents.
  assert (Hlen : length (filter_NextSong log) = length df)
    by by rewrite <- Hevents, length_map.
  split; [exact Hevents|]. split.
  { clear. induction df as [|e df IH]; [done|].
    rewrite songplays_table_cons, IH, songplays_table_single. done. }
  split; [apply songplays_table_length|]. split.
  { rewrite Hlen, songplays_table_length. clear.
    induction df as [|e df IH]; simpl; lia. }
  split.
  - intros Hone.
    assert (Htable : songplays_table df songs
              = map (λ e, songplays_select
                            (e, head (matching_songs e songs))) df).
    { clear -Hone. induction Hone as [|e df He _ IH]; [done|].
      rewrite songplays_table_cons, IH, songplays_table_single. simpl.
      destruct (matching_songs e songs) as [|s [|s' ms]]; simpl in *;
        [done | done | lia]. }
    split; [exact Htable|]. by rewrite Htable, length_map.
  - apply Forall_forall. intros e _ Hnone.
    rewrite songplays_table_single, Hnone.
    split; [|done]. rewrite count_rows_cons, decide_True by done. done.
Qed.

Lemma songplays_one_row_per_event_witness :
  length (songplays_table sample_df [song_x; song_x_reissue]) = 3%nat
  ∧ length (filter_NextSong sample_log) = 2%nat
  ∧ songplays_table sample_df [song_x]
    = map (λ e, songplays_select (e, head (matching_songs e [song_x])))
          sample_df.
Proof.
  destruct (songplays_one_row_per_event utc sample_log sample_df
              [song_x; song_x_reissue]) as (_ & _ & Hcount & _);
    [reflexivity|].
  destruct (songplays_one_row_per_event utc sample_log sample_df [song_x])
    as (_ & _ & _ & _ & Hone & _); [reflexivity|].
  split; [rewrite Hcount; reflexivity|]. split; [reflexivity|].
  apply Hone. repeat constructor.
Defined.

(** In general the join never loses a retained event: it yields one row per
    matching catalog row and one row when there is none. *)
Lemma songplays_at_least_one_row_per_event (events : list event_ts)
    (songs : list song_record) :
  (length events ≤ length (songplays_table events songs))%nat.
Proof.
  rewrite songplays_table_length.
  induction events as [|e events IH]; simpl; lia.
Qed.

(** C10: a retained event whose song or artist is NULL satisfies the join
    condition with no catalog row, whatever the catalog holds, and
    contributes exactly one songplays row, with NULL song_id and
    artist_id. *)
Theorem songplays_null_song_or_artist (before after : list event_ts)
    (e : event_ts) (songs : list song_record) :
  ev_song (ets_event e) = None ∨ ev_artist (ets_event e) = None →
  Forall (λ s, holds (songplays_on e s) = false) songs
  ∧ songplays_table (before ++ e :: after) songs
    = songplays_table before songs
      ++ songplays_select (e, None) :: songplays_table after songs
  ∧ sp_song_id (songplays_select (e, None)) = None
  ∧ sp_artist_id (songplays_select (e, None)) = None.
Proof.
  intros Hnull.
  assert (Hno : ∀ s, holds (songplays_on e s) = false).
  { intros s. unfold songplays_on.
    destruct Hnull as [-> | ->]; simpl.
    - by destruct (sql_eq (ev_artist (ets_event e)) (sr_artist_name s))
        as [[]|].
    - by destruct (sql_eq (ev_song (ets_event e)) (sr_title s)) as [[]|]. }
  split; [by apply Forall_forall|].
  split; [|done].
  rewrite songplays_table_app, (songplays_table_cons e after).
  rewrite songplays_table_single.
  replace (matching_songs e songs) with (@nil song_record); [done|].
  unfold matching_songs. clear -Hno.
  induction songs as [|s songs IH]; [done|].
  simpl. by rewrite Hno.
Qed.

Lemma songplays_null_song_or_artist_witness :
  Forall (λ s, holds (songplays_on (EventTs play_untitled at_2018_11_12_1540) s)
               = false) [song_x; song_untitled]
  ∧ songplays_table (sample_df ++ [EventTs play_untitled at_2018_11_12_1540])
                    [song_x; song_untitled]
    = songplays_table sample_df [song_x; song_untitled]
      ++ [songplays_select (EventTs play_untitled at_2018_11_12_1540, None)].
Proof.
  destruct (songplays_null_song_or_artist sample_df []
              (EventTs play_untitled at_2018_11_12_1540)
              [song_x; song_untitled]) as (H1 & H2 & _).
  - left. reflexivity.
  - split; [exact H1 | exact H2].
Defined.

(** ** Deduplication *)

(** C3: in the songs, artists, users and time tables every row of the
    projected input occurs exactly once and no other row occurs; so a group
    of identical rows leaves one row, and rows that differ in some column
    (the same user on two levels, say) are all kept. *)
Theorem distinct_tables_exact (song_df : list song_record)
    (log_df : list event) (ts_df : list event_ts) :
  (∀ r, count_rows r (songs_table song_df)
        = if decide (r ∈ df_select songs_select song_df)
          then 1%nat else 0%nat)
  ∧ (∀ r, count_rows r (artists_table song_df)
          = if decide (r ∈ df_select artists_select song_df)
            then 1%nat else 0%nat)
  ∧ (∀ r, count_rows r (users_table log_df)
          = if decide (r ∈ df_select users_select log_df)
            then 1%nat else 0%nat)
  ∧ (∀ r, count_rows r (time_table ts_df)
          = if decide (r ∈ df_select time_select ts_df)
            then 1%nat else 0%nat)
  ∧ (∀ e1 e2, e1 ∈ log_df → e2 ∈ log_df →
              ev_userId e1 = ev_userId e2 → ev_level e1 ≠ ev_level e2 →
              users_select e1 ≠ users_select e2
              ∧ count_rows (users_select e1) (users_table log_df) = 1%nat
              ∧ count_rows (users_select e2) (users_table log_df) = 1%nat).
Proof.
  repeat split; try (intros r; apply count_rows_distinct).
  - intros Heq. by injection Heq.
  - unfold users_table. rewrite count_rows_distinct, decide_True; [done|].
    apply list_elem_of_fmap. by exists e1.
  - unfold users_table. rewrite count_rows_distinct, decide_True; [done|].
    apply list_elem_of_fmap. by exists e2.
Qed.

(** On the sample log the user appears once per level. *)
Example users_table_sample :
  users_table (filter_NextSong (sample_log ++ sample_log))
  = [users_select play_x; users_select play_y_paid].
Proof. reflexivity. Qed.

(** ** The timestamp column and the time table *)

Lemma with_timestamp_of_ts (zone : Z → Z) (log1 log2 : list event) :
  map ev_ts log1 = map ev_ts log2 →
  map ets_timestamp <$> with_timestamp zone log1
  = map ets_timestamp <$> with_timestamp zone log2
  ∧ map time_select <$> with_timestamp zone log1
    = map time_select <$> with_timestamp zone log2.
Proof.
  unfold with_timestamp. revert log2.
  induction log1 as [|e1 log1 IH]; intros [|e2 log2] Hts; try done.
  injection Hts as Hts1 Hts. destruct (IH log2 Hts) as [IH1 IH2].
  change (mapM (add_timestamp zone) (e1 :: log1))
    with (y ← add_timestamp zone e1;
          k ← mapM (add_timestamp zone) log1; mret (y :: k)).
  change (mapM (add_timestamp zone) (e2 :: log2))
    with (y ← add_timestamp zone e2;
          k ← mapM (add_timestamp zone) log2; mret (y :: k)).
  assert (Hrow : ∀ e, add_timestamp zone e
            = (t ← get_timestamp zone (ev_ts e); Some (EventTs e t))) by done.
  rewrite (Hrow e1), (Hrow e2), Hts1. clear Hrow.
  destruct (get_timestamp zone (ev_ts e2)) as [t|]; simpl; [|done].
  destruct (mapM (add_timestamp zone) log1) as [df1|],
           (mapM (add_timestamp zone) log2) as [df2|]; simpl in *;
    try done.
  injection IH1 as IH1. injection IH2 as IH2.
  unfold time_select at 1 3. simpl. by rewrite Hts1, IH1, IH2.
Qed.




(** The quotient is a binary64 number: from 2^33 seconds after the epoch
    on, the microseconds need not be whole milliseconds; and outside the
    years 1 to 9999 the lambda raises. *)
Example get_timestamp_binary64 :
  get_timestamp utc (Some 8589934592001)
  = Some (Datetime 2242 3 16 12 56 32 999)
  ∧ get_timestamp utc (Some 253402300799999)
    = Some (Datetime 9999 12 31 23 59 59 998993)
  ∧ get_timestamp utc (Some 253402300800000) = None
  ∧ get_timestamp utc (Some (-62135596800000)) = None.
Proof. vm_compute. done. Qed.

(** The derivation on the instant of the sample play: Monday 12 November
    2018, 15:40 UTC, ISO week 46. *)
Example time_table_sample :
  time_table <$> with_timestamp utc [play_x; play_x]
  = Some [TimeRow (Some 1542037200000) at_2018_11_12_1540 15 12 46 11 2018 2].
Proof. reflexivity. Qed.

(** C9: among the rows of the time table's input, two rows are equal in
    every column exactly when they have the same [ts]; hence the time table
    has one row per distinct [ts] of the retained events, and its
    [ts_key] column has no repetition. *)
Theorem time_table_one_row_per_ts (zone : Z → Z) (log : list event)
    (df : list event_ts) :
  with_timestamp zone (filter_NextSong log) = Some df →
  (∀ r1 r2, r1 ∈ df → r2 ∈ df →
     time_select r1 = time_select r2
     ↔ ev_ts (ets_event r1) = ev_ts (ets_event r2))
  ∧ map ti_ts_key (time_table df) = distinct (map ev_ts (filter_NextSong log))
  ∧ NoDup (map ti_ts_key (time_table df))
  ∧ length (time_table df)
    = length (distinct (map ev_ts (filter_NextSong log))).
Proof.
  intros Hdf.
  assert (Hiff : ∀ r1 r2, r1 ∈ df → r2 ∈ df →
            time_select r1 = time_select r2
            ↔ ev_ts (ets_event r1) = ev_ts (ets_event r2)).
  { intros r1 r2 Hr1 Hr2. split.
    - intros Heq. by injection Heq.
    - apply (time_select_of_ts zone); by eapply with_timestamp_elem. }
  assert (Hkeys : map ti_ts_key (time_table df)
                  = distinct (map ev_ts (filter_NextSong log))).
  { rewrite <- (with_timestamp_events _ _ _ Hdf), map_map.
    unfold time_table, df_select.
    apply (distinct_by_key time_select (λ r, ev_ts (ets_event r)) ti_ts_key);
      [done|].
    intros x y Hx Hy. by apply Hiff. }
  split; [exact Hiff|]. split; [exact Hkeys|]. split.
  - rewrite Hkeys. apply NoDup_remove_dups.
  - by rewrite <- Hkeys, length_map.
Qed.

Lemma time_table_one_row_per_ts_witness :
  map ti_ts_key (time_table sample_df)
  = distinct (map ev_ts (filter_NextSong sample_log)).
Proof.
  refine (proj1 (proj2 (time_table_one_row_per_ts utc sample_log sample_df _))).
  reflexivity.
Defined.

(** ** The engine session *)

Lemma bind_run {A B} (m : M A) (f : A → M B) (st : process) :
  (m ≫= f) st
  = match m st with
    | (st', Ok a) => f a st'
    | (st', Err e) => (st', Err e)
    end.
Proof. reflexivity. Qed.

Lemma create_spark_session_run (st : process) :
  ∃ s, active_session (create_spark_session st).1 = Some s
       ∧ (create_spark_session st).2 = Ok (session_handle s)
       ∧ (∀ s0, active_session st = Some s0 →
                session_handle s = session_handle s0)
       ∧ s3 (create_spark_session st).1 = s3 st
       ∧ loads (create_spark_session st).1 = loads st
       ∧ environ (create_spark_session st).1 = environ st
       ∧ local_files (create_spark_session st).1 = local_files st.
Proof.
  unfold create_spark_session, getOrCreate, mbind, M_bind, get_state, modify.
  simpl. destruct (active_session st) as [s0|] eqn:Hs; simpl.
  - eexists. split; [done|]. split; [done|]. split; [|done].
    by intros s1 [= <-].
  - eexists. split; [done|]. split; [done|]. by split.
Qed.

Lemma repeat_create_spark_session_same (n : nat) (st : process)
    (s : spark_session) :
  active_session st = Some s →
  (repeat_create_spark_session n st).2 = Ok (replicate n (session_handle s))
  ∧ session_handle <$> active_session (repeat_create_spark_session n st).1
    = Some (session_handle s).
Proof.
  revert st s. induction n as [|n IH]; intros st s Hs.
  - simpl. by rewrite Hs.
  - destruct (create_spark_session_run st) as (s' & Hs' & Hr & Hsame & _).
    specialize (Hsame s Hs).
    destruct (IH _ s' Hs') as [IHr IHs].
    change (repeat_create_spark_session (S n) st)
      with ((h ← create_spark_session;
             hs ← repeat_create_spark_session n; mret (h :: hs)) st).
    rewrite bind_run.
    destruct (create_spark_session st) as [st1 [h|e]]; simpl in *; [|done].
    injection Hr as ->. rewrite bind_run.
    destruct (repeat_create_spark_session n st1) as [st2 [hs|e]];
      simpl in *; [|done].
    injection IHr as ->. by rewrite <- Hsame.
Qed.

(** C7: in one process every call of [create_spark_session] returns the
    same handle, that of the process's one session: the first call creates
    the session when there is none, later calls return it. *)
Theorem create_spark_session_idempotent (st : process) (n : nat) :
  ∃ h, (repeat_create_spark_session (S n) st).2 = Ok (replicate (S n) h)
       ∧ session_handle
           <$> active_session (repeat_create_spark_session (S n) st).1
         = Some h
       ∧ (create_spark_session st).2 = Ok h
       ∧ (create_spark_session (create_spark_session st).1).2 = Ok h.
Proof.
  destruct (create_spark_session_run st) as (s & Hs & Hr & _).
  destruct (repeat_create_spark_session_same n _ s Hs) as [Hn Hact].
  destruct (create_spark_session_run (create_spark_session st).1)
    as (s' & _ & Hr' & Hsame & _).
  exists (session_handle s).
  change (repeat_create_spark_session (S n) st)
    with ((h ← create_spark_session;
           hs ← repeat_create_spark_session n; mret (h :: hs)) st).
  rewrite bind_run.
  destruct (create_spark_session st) as [st1 [h|e]]; simpl in *; [|done].
  injection Hr as ->. rewrite bind_run.
  destruct (repeat_create_spark_session n st1) as [st2 [hs|e]];
    simpl in *; [|done].
  injection Hn as ->. rewrite Hr', (Hsame s Hs). done.
Qed.

(** ** Configuration *)

Lemma config_read_new (name : string) (st : process) :
  config_read ConfigParser_new name st
  = (st, Ok (default ConfigParser_new (local_files st !! name))).
Proof.
  unfold config_read. rewrite bind_run. simpl.
  destruct (local_files st !! name) as [[defaults sections]|]; simpl; [|done].
  by rewrite !(right_id_L ∅ _).
Qed.

Lemma module_init_run (st : process) :
  module_init st
  = let config :=
      default ConfigParser_new (local_files st !! "dl.cfg"%string) in
    match config_get config "AWS" "AWS_ACCESS_KEY_ID" with
    | Err e => (st, Err e)
    | Ok v1 =>
        match config_get config "AWS" "AWS_SECRET_ACCESS_KEY" with
        | Err e =>
            (set_environ <[ "AWS_ACCESS_KEY_ID"%string := v1 ]> st, Err e)
        | Ok v2 =>
            (set_environ <[ "AWS_SECRET_ACCESS_KEY"%string := v2 ]>
               (set_environ <[ "AWS_ACCESS_KEY_ID"%string := v1 ]> st),
             Ok config)
        end
    end.
Proof.
  unfold module_init. rewrite bind_run, config_read_new. cbv zeta.
  generalize (default ConfigParser_new (local_files st !! "dl.cfg"%string)).
  intros config. rewrite bind_run. unfold lift_result at 1.
  destruct (config_get config "AWS" "AWS_ACCESS_KEY_ID") as [v1|e]; [|done].
  rewrite bind_run. unfold os_environ_set at 1, modify at 1.
  rewrite bind_run. unfold lift_result at 1.
  by destruct (config_get config "AWS" "AWS_SECRET_ACCESS_KEY") as [v2|e].
Qed.

(** Every error of an interpolation is an error of the configuration
    parser. *)
Lemma interpolate_some_error (nested : string → result string)
    (map : gmap string string) (option section : string)
    (state : interpolation_state) (rest : string) (e : error) :
  (∀ v e', nested v = Err e' → is_config_error e' = true) →
  interpolate_some nested map option section state rest = Err e →
  is_config_error e = true.
Proof.
  intros Hnested. revert state.
  induction rest as [|c rest IH]; intros state; simpl.
  - destruct state; intros [= <-]; done.
  - destruct state as [| |name|name].
    + destruct (Ascii.eqb c "%"); [apply IH|].
      destruct (interpolate_some _ _ _ _ InText rest) eqn:Hrest;
        [done | intros [= <-]; by eapply IH].
    + destruct (Ascii.eqb c "%").
      { destruct (interpolate_some _ _ _ _ InText rest) eqn:Hrest;
          [done | intros [= <-]; by eapply IH]. }
      destruct (Ascii.eqb c "("); [apply IH | by intros [= <-]].
    + destruct (Ascii.eqb c ")"); [|apply IH].
      destruct name; [by intros [= <-] | apply IH].
    + destruct (Ascii.eqb c "s"); [|by intros [= <-]].
      destruct (map !! optionxform name) as [v|]; [|by intros [= <-]].
      destruct (if has_percent v then nested v else Ok v) as [v'|e'] eqn:Hv.
      * destruct (interpolate_some _ _ _ _ InText rest) eqn:Hrest;
          [done | intros [= <-]; by eapply IH].
      * intros [= <-]. destruct (has_percent v); [by eapply Hnested | done].
Qed.

Lemma interpolate_error (depth_left : nat) (map : gmap string string)
    (option section value : string) (e : error) :
  interpolate depth_left map option section value = Err e →
  is_config_error e = true.
Proof.
  revert value e. induction depth_left as [|n IH]; intros value e; simpl.
  - by intros [= <-].
  - apply interpolate_some_error. apply IH.
Qed.

(** A value without [%] is its own interpolation. *)
Lemma interpolate_some_plain (nested : string → result string)
    (map : gmap string string) (option section value : string) :
  has_percent value = false →
  interpolate_some nested map option section InText value = Ok value.
Proof.
  induction value as [|c value IH]; [done|]. simpl.
  destruct (Ascii.eqb c "%"); [done|]. intros Hplain. by rewrite IH.
Qed.

Lemma before_get_plain (map : gmap string string)
    (option section value : string) :
  has_percent value = false → before_get map option section value = Ok value.
Proof. apply interpolate_some_plain. Qed.

Lemma config_get_error (cfg : config_parser) (section option : string)
    (e : error) :
  config_get cfg section option = Err e → is_config_error e = true.
Proof.
  unfold config_get, before_get.
  destruct (cp_sections cfg !! section) as [d|].
  - destruct ((d ∪ cp_defaults cfg) !! optionxform option) as [v|];
      [apply interpolate_error | by intros [= <-]].
  - case_decide; [|by intros [= <-]].
    destruct (cp_defaults cfg !! optionxform option) as [v|];
      [apply interpolate_error | by intros [= <-]].
Qed.

Lemma config_get_absent (cfg : config_parser) (option : string) :
  key_absent cfg option →
  ∃ e, config_get cfg "AWS" option = Err e ∧ is_config_error e = true.
Proof.
  intros Habs. unfold config_get.
  destruct (cp_sections cfg !! "AWS"%string) as [d|] eqn:Hsec.
  - destruct (Habs d Hsec) as [Hd Hdef].
    assert ((d ∪ cp_defaults cfg) !! optionxform option = None) as ->
      by by apply lookup_union_None.
    by eexists.
  - rewrite decide_False by done. by eexists.
Qed.

Lemma config_get_present (cfg : config_parser) (option v : string) :
  config_get cfg "AWS" option = Ok v →
  ∃ d raw, cp_sections cfg !! "AWS"%string = Some d
           ∧ (d ∪ cp_defaults cfg) !! optionxform option = Some raw
           ∧ before_get (d ∪ cp_defaults cfg) (optionxform option) "AWS" raw
             = Ok v.
Proof.
  unfold config_get.
  destruct (cp_sections cfg !! "AWS"%string) as [d|] eqn:Hsec.
  - destruct ((d ∪ cp_defaults cfg) !! optionxform option) as [raw|] eqn:Hv;
      [|done].
    intros Hget. by exists d, raw.
  - by rewrite decide_False by done.
Qed.

Lemma config_get_value (cfg : config_parser) (option raw : string)
    (d : gmap string string) :
  cp_sections cfg !! "AWS"%string = Some d →
  (d ∪ cp_defaults cfg) !! optionxform option = Some raw →
  config_get cfg "AWS" option
  = before_get (d ∪ cp_defaults cfg) (optionxform option) "AWS" raw.
Proof. intros Hsec Hraw. unfold config_get. by rewrite Hsec, Hraw. Qed.

Lemma config_get_no_option (cfg : config_parser) (option : string)
    (d : gmap string string) :
  cp_sections cfg !! "AWS"%string = Some d →
  (d ∪ cp_defaults cfg) !! optionxform option = None →
  config_get cfg "AWS" option = Err (NoOptionError (optionxform option) "AWS").
Proof. intros Hsec Hraw. unfold config_get. by rewrite Hsec, Hraw. Qed.

Lemma key_absent_no_file (option : string) : key_absent ConfigParser_new option.
Proof. intros d Hd. simpl in Hd. by rewrite lookup_empty in Hd. Qed.

(** A failing module-level statement ends the program before [main]. *)
Lemma script_module_init_fails (zone : Z → Z) (st st' : process) (e : error) :
  module_init st = (st', Err e) → script zone st = (st', Err e).
Proof. intros H. unfold script. by rewrite bind_run, H. Qed.

(** When the configuration cannot be loaded the program ends with a
    configuration error, no session created, storage neither read nor
    written. *)
Lemma module_init_fails (zone : Z → Z) (st : process) (e : error) :
  (module_init st).2 = Err e →
  is_config_error e = true
  ∧ (script zone st).2 = Err e
  ∧ active_session (script zone st).1 = active_session st
  ∧ next_handle (script zone st).1 = next_handle st
  ∧ s3 (script zone st).1 = s3 st
  ∧ loads (script zone st).1 = loads st.
Proof.
  pose proof (module_init_run st) as Hrun. cbv zeta in Hrun.
  destruct (config_get _ "AWS" "AWS_ACCESS_KEY_ID") as [v1|e1] eqn:H1.
  - destruct (config_get _ "AWS" "AWS_SECRET_ACCESS_KEY") as [v2|e2] eqn:H2.
    + rewrite Hrun. done.
    + rewrite (script_module_init_fails zone _ _ _ Hrun), Hrun.
      intros [= <-]. split; [by eapply config_get_error|done].
  - rewrite (script_module_init_fails zone _ _ _ Hrun), Hrun.
    intros [= <-]. split; [by eapply config_get_error|done].
Qed.



(** Without the file the program stops at the first [config.get], no
    session created; with it the two variables are set. *)
Example config_missing_file :
  (script utc unconfigured_process).2 = Err (NoSectionError "AWS")
  ∧ active_session (script utc unconfigured_process).1 = None
  ∧ loads (script utc unconfigured_process).1 = [].
Proof. vm_compute. done. Qed.

Example config_sets_credentials :
  environ (module_init sample_process).1
  = <[ "AWS_SECRET_ACCESS_KEY" := "secret" ]>
      (<[ "AWS_ACCESS_KEY_ID" := "AKIA" ]> ∅)%string.
Proof. vm_compute. done. Qed.

(** A doubled [%] in the file stands for one; a lone [%] is refused. *)
Example config_interpolates :
  config_get (ConfigParser ∅ {[ "AWS" := {[ "aws_access_key_id" := "AK%%IA"
                                        ]} ]}%string)
             "AWS" "AWS_ACCESS_KEY_ID" = Ok "AK%IA"%string
  ∧ config_get (ConfigParser ∅ {[ "AWS" := {[ "aws_access_key_id" := "AK%IA"
                                          ]} ]}%string)
               "AWS" "AWS_ACCESS_KEY_ID"
    = Err (InterpolationSyntaxError "aws_access_key_id" "AWS").
Proof. vm_compute. done. Qed.

(** ** The two transforms, step by step *)

Lemma write_parquet_overwrite (table : dataset) (path : string)
    (st : process) :
  write_parquet table path Overwrite st = (set_s3 <[path := table]> st, Ok tt).
Proof. reflexivity. Qed.

Lemma spark_read_json_run (spark : nat) (path : string) (st : process) :
  spark_read_json spark path st
  = match s3 st !! path with
    | None => (add_load path st, Err (PathDoesNotExist path))
    | Some d => (add_load path st, Ok d)
    end.
Proof.
  unfold spark_read_json. rewrite bind_run. simpl. rewrite bind_run. simpl.
  by destruct (s3 st !! path).
Qed.

Lemma process_song_data_run (spark : nat) (input_data output_data : string)
    (st : process) :
  process_song_data spark input_data output_data st
  = let song_data := input_data +:+ "song_data/A/*/*/*.json" in
    match s3 st !! song_data with
    | None => (add_load song_data st, Err (PathDoesNotExist song_data))
    | Some (SongJson (r :: rows)) =>
        (set_s3 (λ store,
             <[output_data +:+ "artiststables/" :=
                 ArtistsParquet (artists_table (r :: rows))]>
               (<[output_data +:+ "songstables/" :=
                    SongsParquet (songs_table (r :: rows))]> store))
           (add_load song_data st), Ok tt)
    | Some _ => (add_load song_data st, Err (CannotResolveColumns song_data))
    end.
Proof.
  unfold process_song_data. cbv zeta.
  rewrite bind_run, spark_read_json_run.
  destruct (s3 st !! _) as [d|]; [|done].
  rewrite bind_run. destruct d as [[|r rows]| | | | | |]; done.
Qed.

Lemma write_parquet_computed_run (table : option dataset) (path : string)
    (st : process) :
  write_parquet_computed table path st
  = match table with
    | Some t => (set_s3 <[path := t]> st, Ok tt)
    | None =>
        (if adaptive st then st else set_s3 (delete path) st,
         Err PythonException)
    end.
Proof.
  unfold write_parquet_computed. destruct table as [t|]; [done|].
  rewrite bind_run. simpl. by destruct (adaptive st).
Qed.

Lemma process_log_data_run (zone : Z → Z) (spark : nat)
    (input_data output_data : string) (st : process) :
  process_log_data zone spark input_data output_data st
  = let log_data := input_data +:+ "log_data/2018/11/*.json" in
    let song_data := input_data +:+ "song_data/A/*/*/*.json" in
    match s3 st !! log_data with
    | None => (add_load log_data st, Err (PathDoesNotExist log_data))
    | Some (LogJson (r :: rows)) =>
        let df := filter_NextSong (r :: rows) in
        let st1 :=
          set_views <[ "events_table"%string := TimestampedEvents df ]>
            (set_s3 <[output_data +:+ "userstables/" :=
                        UsersParquet (users_table df)]>
                    (add_load log_data st)) in
        match with_timestamp zone df with
        | None =>
            (if adaptive st then st1
             else set_s3 (delete (output_data +:+ "timetables/")) st1,
             Err PythonException)
        | Some df =>
            let st2 :=
              add_load song_data
                (set_s3 <[output_data +:+ "timetables/" :=
                            TimeParquet (time_table df)]> st1) in
            match s3 st2 !! song_data with
            | None => (st2, Err (PathDoesNotExist song_data))
            | Some d =>
                let st3 :=
                  set_views <[ "songs_table"%string := LoadedView d ]> st2 in
                match d with
                | SongJson (s :: songs) =>
                    (set_s3 <[output_data +:+ "songplays/" :=
                                SongplaysParquet
                                  (songplays_table df (s :: songs))]> st3,
                     Ok tt)
                | _ => (st3, Err (CannotResolveColumns "songs_table"))
                end
            end
        end
    | Some _ => (add_load log_data st, Err (CannotResolveColumns log_data))
    end.
Proof.
  unfold process_log_data. cbv zeta.
  rewrite bind_run, spark_read_json_run.
  destruct (s3 st !! _) as [d|]; [|done].
  rewrite bind_run. destruct d as [|[|r rows]| | | | |]; try done.
  unfold as_events, mret, M_ret. rewrite bind_run, write_parquet_overwrite.
  rewrite bind_run. unfold createOrReplaceTempView at 1, modify at 1.
  rewrite bind_run, write_parquet_computed_run.
  destruct (with_timestamp zone (filter_NextSong (r :: rows))) as [df|]
    eqn:Hts;
    cbn [fmap option_fmap option_map adaptive set_views set_s3 add_load];
    [|by destruct (adaptive st)].
  rewrite bind_run, spark_read_json_run.
  cbn [s3 set_s3 add_load set_views].
  match goal with
  | |- context [match ?store !! ?path with _ => _ end] =>
      destruct (store !! path) as [d|]; [|done]
  end.
  rewrite bind_run. unfold createOrReplaceTempView at 1, modify at 1.
  rewrite bind_run. unfold spark_sql_songplays. rewrite bind_run.
  cbn [get_state temp_views set_views add_load set_s3].
  rewrite lookup_insert_ne by done. rewrite !lookup_insert_eq.
  destruct d as [[|s songs]| | | | | |]; try done.
  unfold as_song_records, mret, M_ret. rewrite bind_run.
  cbn [fst snd]. rewrite write_parquet_computed_run, Hts. done.
Qed.

(** The tables a successful run of [process_song_data] leaves. *)
Lemma process_song_data_tables (spark : nat) (input_data output_data : string)
    (st : process) :
  (process_song_data spark input_data output_data st).2 = Ok tt →
  ∃ df, s3 st !! (input_data +:+ "song_data/A/*/*/*.json") = Some (SongJson df)
    ∧ s3 (process_song_data spark input_data output_data st).1
        !! (output_data +:+ "songstables/")
      = Some (SongsParquet (songs_table df))
    ∧ s3 (process_song_data spark input_data output_data st).1
        !! (output_data +:+ "artiststables/")
      = Some (ArtistsParquet (artists_table df)).
Proof.
  rewrite process_song_data_run. cbv zeta.
  destruct (s3 st !! _) as [d|] eqn:Hsong; [|done].
  destruct d as [[|r df]| | | | | |]; try done.
  intros _. exists (r :: df). cbn [fst s3 set_s3 add_load]. split; [done|].
  split; [|apply lookup_insert_eq].
  rewrite lookup_insert_ne, lookup_insert_eq; [done|].
  intros H. apply (inj (String.app output_data)) in H. discriminate.
Qed.

(** The tables a successful run of [process_log_data] leaves: they are the
    three table functions applied to the retained rows of the log. *)
Lemma process_log_data_tables (zone : Z → Z) (spark : nat)
    (input_data output_data : string) (st : process) :
  (process_log_data zone spark input_data output_data st).2 = Ok tt →
  ∃ rows df song_df,
    s3 st !! (input_data +:+ "log_data/2018/11/*.json") = Some (LogJson rows)
    ∧ with_timestamp zone (filter_NextSong rows) = Some df
    ∧ s3 (process_log_data zone spark input_data output_data st).1
        !! (output_data +:+ "userstables/")
      = Some (UsersParquet (users_table (filter_NextSong rows)))
    ∧ s3 (process_log_data zone spark input_data output_data st).1
        !! (output_data +:+ "timetables/")
      = Some (TimeParquet (time_table df))
    ∧ s3 (process_log_data zone spark input_data output_data st).1
        !! (output_data +:+ "songplays/")
      = Some (SongplaysParquet (songplays_table df song_df)).
Proof.
  rewrite process_log_data_run. cbv zeta.
  destruct (s3 st !! _) as [d|] eqn:Hlog; [|done].
  destruct d as [|[|r rows]| | | | |]; try done.
  destruct (with_timestamp zone (filter_NextSong (r :: rows))) as [df|]
    eqn:Hts; [|done].
  match goal with
  | |- context [match ?store !! ?path with _ => _ end] =>
      destruct (store !! path) as [d|]; [|done]
  end.
  destruct d as [[|s song_df]| | | | | |]; try done.
  intros _. exists (r :: rows), df, (s :: song_df).
  cbn [fst s3 set_s3 add_load set_views].
  split; [done|]. split; [done|].
  assert (Hne : ∀ a b : string, a ≠ b →
            output_data +:+ a ≠ output_data +:+ b).
  { intros a b Hab H. by apply (inj (String.app output_data)) in H. }
  split; [|split].
  - rewrite !lookup_insert_ne by (apply Hne; discriminate).
    apply lookup_insert_eq.
  - rewrite lookup_insert_ne by (apply Hne; discriminate).
    apply lookup_insert_eq.
  - apply lookup_insert_eq.
Qed.

(** With [mode='append'] instead, a second write would add its rows to the
    first. *)
Example write_parquet_append_accumulates :
  s3 (write_parquet (UsersParquet [users_select play_x]) "out/users/" Append
        (write_parquet (UsersParquet [users_select play_x]) "out/users/"
           Append unconfigured_process).1).1 !! "out/users/"%string
  = Some (UsersParquet [users_select play_x; users_select play_x]).
Proof. reflexivity. Qed.

(** ** The input paths *)

Lemma process_song_data_loads (spark : nat) (input_data output_data : string)
    (st : process) :
  loads (process_song_data spark input_data output_data st).1
  = loads st ++ [input_data +:+ "song_data/A/*/*/*.json"].
Proof.
  rewrite process_song_data_run. cbv zeta.
  destruct (s3 st !! _) as [[[|r rows]| | | | | |]|]; done.
Qed.

Lemma process_log_data_loads (zone : Z → Z) (spark : nat)
    (input_data output_data : string) (st : process) :
  (process_log_data zone spark input_data output_data st).2 = Ok tt →
  loads (process_log_data zone spark input_data output_data st).1
  = loads st ++ [input_data +:+ "log_data/2018/11/*.json";
                 input_data +:+ "song_data/A/*/*/*.json"].
Proof.
  rewrite process_log_data_run. cbv zeta.
  destruct (s3 st !! _) as [[|[|r rows]| | | | |]|]; try done.
  destruct (with_timestamp zone (filter_NextSong (r :: rows))) as [df|];
    [|done].
  match goal with
  | |- context [match ?store !! ?path with _ => _ end] =>
      destruct (store !! path) as [[[|s songs]| | | | | |]|]
  end; try done.
  intros _. simpl. by rewrite <- app_assoc.
Qed.

Lemma main_run (zone : Z → Z) (st : process) :
  main zone st
  = let st0 := (create_spark_session st).1 in
    match create_spark_session st with
    | (_, Err e) => (st0, Err e)
    | (_, Ok spark) =>
        match process_song_data spark "s3a://udacity-dend/"
                "s3a://dend-data-lake-p4/sparkify/" st0 with
        | (st1, Err e) => (st1, Err e)
        | (st1, Ok _) =>
            process_log_data zone spark "s3a://udacity-dend/"
              "s3a://dend-data-lake-p4/sparkify/" st1
        end
    end.
Proof.
  unfold main. rewrite bind_run.
  destruct (create_spark_session st) as [st0 [spark|e]]; [|done].
  cbv zeta. by rewrite bind_run.
Qed.

(** C8: the song pattern and the log pattern are the two literals, appended
    to the input root: [process_song_data] loads the song pattern,
    [process_log_data] loads the log pattern and then the song pattern
    again, and [main], which takes no argument, issues the three loads on
    the fixed root, the song pattern twice. *)
Theorem input_patterns_fixed (zone : Z → Z) (st : process) :
  (main zone st).2 = Ok tt →
  loads (main zone st).1
  = loads st ++ ["s3a://udacity-dend/song_data/A/*/*/*.json";
                 "s3a://udacity-dend/log_data/2018/11/*.json";
                 "s3a://udacity-dend/song_data/A/*/*/*.json"]%string
  ∧ (∀ spark input_data output_data st0,
       loads (process_song_data spark input_data output_data st0).1
       = loads st0 ++ [input_data +:+ "song_data/A/*/*/*.json"])
  ∧ (∀ spark input_data output_data st0,
       (process_log_data zone spark input_data output_data st0).2 = Ok tt →
       loads (process_log_data zone spark input_data output_data st0).1
       = loads st0 ++ [input_data +:+ "log_data/2018/11/*.json";
                       input_data +:+ "song_data/A/*/*/*.json"]).
Proof.
  intros Hok. split; [|split].
  - rewrite main_run in Hok |- *. cbv zeta in *.
    destruct (create_spark_session_run st) as (s & _ & Hr & _ & _ & Hl & _).
    destruct (create_spark_session st) as [st0 [spark|e]]; [|done].
    cbn [fst snd] in *.
    pose proof (process_song_data_loads spark "s3a://udacity-dend/"
                  "s3a://dend-data-lake-p4/sparkify/" st0) as Hsong.
    destruct (process_song_data spark _ _ st0) as [st1 [[]|e]]; [|done].
    rewrite (process_log_data_loads _ _ _ _ _ Hok). simpl in Hsong.
    rewrite Hsong, Hl, <- app_assoc. done.
  - apply process_song_data_loads.
  - apply process_log_data_loads.
Qed.

Lemma input_patterns_fixed_witness :
  loads (main utc sample_process).1
  = ["s3a://udacity-dend/song_data/A/*/*/*.json";
     "s3a://udacity-dend/log_data/2018/11/*.json";
     "s3a://udacity-dend/song_data/A/*/*/*.json"]%string.
Proof.
  refine (proj1 (input_patterns_fixed utc sample_process _)).
  vm_compute. reflexivity.
Defined.

(** ** The page filter *)

Lemma filter_NextSong_drop (before after : list event) (e : event) :
  ev_page e ≠ Some "NextSong"%string →
  filter_NextSong (before ++ e :: after) = filter_NextSong (before ++ after).
Proof.
  intros Hpage. unfold filter_NextSong, df_filter.
  rewrite !List.filter_app. simpl.
  replace (holds (page_is_NextSong e)) with false; [done|].
  unfold page_is_NextSong. destruct (ev_page e) as [p|]; simpl; [|done].
  rewrite bool_decide_eq_false_2; [done|]. congruence.
Qed.

Lemma song_data_is_not_log_data (input_data : string) :
  input_data +:+ "song_data/A/*/*/*.json"
  ≠ input_data +:+ "log_data/2018/11/*.json".
Proof. intros H. apply (inj (String.app input_data)) in H. discriminate. Qed.

Lemma agree_off_insert (p k : string) (d : dataset)
    (m1 m2 : gmap string dataset) :
  agree_off p m1 m2 → agree_off p (<[k := d]> m1) (<[k := d]> m2).
Proof.
  intros H q Hq. rewrite !lookup_insert. case_decide; [done|]. by apply H.
Qed.

Lemma agree_off_delete (p k : string) (m1 m2 : gmap string dataset) :
  agree_off p m1 m2 → agree_off p (delete k m1) (delete k m2).
Proof.
  intros H q Hq. rewrite !lookup_delete. case_decide; [done|]. by apply H.
Qed.

(** C2: an event row whose page is not 'NextSong' (or is NULL) is dropped
    by the filter; the users, time and songplays tables a run of
    [process_log_data] writes are those of the log without that row; and,
    provided the log without the row still has a record, the run ends the
    same way and leaves the same content at every storage path other than
    the log itself, whether or not the log holds that row. *)
Theorem non_NextSong_contributes_nothing (zone : Z → Z) (spark : nat)
    (input_data output_data : string) (st : process)
    (before after : list event) (e : event) :
  ev_page e ≠ Some "NextSong"%string →
  let log_data := input_data +:+ "log_data/2018/11/*.json" in
  let with_row :=
    process_log_data zone spark input_data output_data
      (set_s3 <[log_data := LogJson (before ++ e :: after)]> st) in
  let without_row :=
    process_log_data zone spark input_data output_data
      (set_s3 <[log_data := LogJson (before ++ after)]> st) in
  filter_NextSong (before ++ e :: after) = filter_NextSong (before ++ after)
  ∧ (e ∉ filter_NextSong (before ++ e :: after))
  ∧ (with_row.2 = Ok tt →
     ∃ df songs,
       with_timestamp zone (filter_NextSong (before ++ after)) = Some df
       ∧ s3 with_row.1 !! (output_data +:+ "userstables/")
         = Some (UsersParquet
                   (users_table (filter_NextSong (before ++ after))))
       ∧ s3 with_row.1 !! (output_data +:+ "timetables/")
         = Some (TimeParquet (time_table df))
       ∧ s3 with_row.1 !! (output_data +:+ "songplays/")
         = Some (SongplaysParquet (songplays_table df songs)))
  ∧ (before ++ after ≠ [] →
     with_row.2 = without_row.2
     ∧ agree_off log_data (s3 with_row.1) (s3 without_row.1)).
Proof.
  intros Hpage log_data with_row without_row.
  pose proof (filter_NextSong_drop before after e Hpage) as Hdrop.
  split; [exact Hdrop|]. split.
  { unfold filter_NextSong, df_filter. rewrite list_elem_of_In, filter_In.
    intros [_ Hkeep]. unfold page_is_NextSong in Hkeep.
    destruct (ev_page e) as [p|]; simpl in Hkeep; [|done].
    apply Hpage. f_equal. by case_bool_decide. }
  split.
  { intros Hok. subst with_row.
    destruct (process_log_data_tables _ _ _ _ _ Hok)
      as (rows & df & songs & Hrows & Hdf & Hu & Ht & Hs).
    fold log_data in Hrows. cbn [s3 set_s3] in Hrows.
    rewrite lookup_insert_eq in Hrows. injection Hrows as <-.
    rewrite Hdrop in Hdf, Hu. by exists df, songs. }
  intros Hrest. subst with_row without_row.
  remember (before ++ e :: after) as l1 eqn:Hl1.
  remember (before ++ after) as l2 eqn:Hl2.
  destruct l1 as [|r1 rows1]; [by destruct before|].
  destruct l2 as [|r2 rows2]; [done|].
  rewrite !process_log_data_run. cbv zeta. fold log_data.
  cbn [s3 set_s3 add_load set_views adaptive]. rewrite !lookup_insert_eq.
  assert (Hagree : agree_off log_data
            (<[log_data := LogJson (r1 :: rows1)]> (s3 st))
            (<[log_data := LogJson (r2 :: rows2)]> (s3 st))).
  { intros q Hq. by rewrite !lookup_insert_ne. }
  rewrite Hdrop.
  set (users := UsersParquet _).
  destruct (with_timestamp zone _) as [df|].
  - cbn [s3 set_s3 add_load set_views].
    set (times := TimeParquet _).
    assert (Hsong :
      <[output_data +:+ "timetables/" := times]>
        (<[output_data +:+ "userstables/" := users]>
           (<[log_data := LogJson (r1 :: rows1)]> (s3 st)))
        !! (input_data +:+ "song_data/A/*/*/*.json")
      = <[output_data +:+ "timetables/" := times]>
          (<[output_data +:+ "userstables/" := users]>
             (<[log_data := LogJson (r2 :: rows2)]> (s3 st)))
          !! (input_data +:+ "song_data/A/*/*/*.json")).
    { exact (agree_off_insert _ _ _ _ _
               (agree_off_insert _ _ _ _ _ Hagree) _
               (song_data_is_not_log_data input_data)). }
    rewrite Hsong. clear Hsong.
    destruct (_ !! (input_data +:+ "song_data/A/*/*/*.json"))
      as [[[|s songs]| | | | | |]|];
      cbn [fst snd s3 set_s3 add_load set_views]; (split; [done|]);
      repeat apply agree_off_insert; exact Hagree.
  - destruct (adaptive st); cbn [fst snd s3 set_s3 add_load set_views];
      (split; [done|]).
    + by apply agree_off_insert.
    + by apply agree_off_delete, agree_off_insert.
Qed.

Lemma non_NextSong_contributes_nothing_witness :
  (process_log_data utc 0 "s3a://udacity-dend/" "out/"
     (set_s3 <[ "s3a://udacity-dend/" +:+ "log_data/2018/11/*.json" :=
                  LogJson ([play_x] ++ home_visit :: [play_y_paid]) ]>
             sample_process)).2
  = (process_log_data utc 0 "s3a://udacity-dend/" "out/"
       (set_s3 <[ "s3a://udacity-dend/" +:+ "log_data/2018/11/*.json" :=
                    LogJson ([play_x] ++ [play_y_paid]) ]>
               sample_process)).2.
Proof.
  refine (proj1 (proj2 (proj2 (proj2
            (non_NextSong_contributes_nothing utc 0 "s3a://udacity-dend/"
               "out/" sample_process [play_x] [play_y_paid] home_visit _)))
            _)).
  - discriminate.
  - discriminate.
Defined.

(** A log whose only record is not a play: the run succeeds and writes
    three empty tables. *)
Example only_a_home_visit :
  let r := process_log_data utc 0 "s3a://udacity-dend/" "out/"
             (set_s3 <[ "s3a://udacity-dend/log_data/2018/11/*.json"%string
                        := LogJson [home_visit] ]> sample_process) in
  r.2 = Ok tt
  ∧ s3 r.1 !! "out/userstables/"%string = Some (UsersParquet [])
  ∧ s3 r.1 !! "out/timetables/"%string = Some (TimeParquet [])
  ∧ s3 r.1 !! "out/songplays/"%string = Some (SongplaysParquet []).
Proof. vm_compute. done. Qed.

(** ** Running the job again *)

Ltac paths_differ :=
  let H := fresh in intros H; vm_compute in H; discriminate H.

Lemma create_spark_session_engine (st : process) :
  adaptive (create_spark_session st).1 = adaptive st
  ∧ temp_views (create_spark_session st).1 = temp_views st.
Proof.
  unfold create_spark_session, getOrCreate. rewrite bind_run. simpl.
  by destruct (active_session st).
Qed.

(** What [main] leaves in the store and how it ends, in terms of the store
    it starts from. *)
Lemma main_store (zone : Z → Z) (st : process) :
  (s3 (main zone st).1, (main zone st).2)
  = match s3 st !! SONG_DATA with
    | None => (s3 st, Err (PathDoesNotExist SONG_DATA))
    | Some (SongJson (s :: songs)) =>
        let store1 :=
          <[ARTISTS_OUT := ArtistsParquet (artists_table (s :: songs))]>
            (<[SONGS_OUT := SongsParquet (songs_table (s :: songs))]>
               (s3 st)) in
        match s3 st !! LOG_DATA with
        | None => (store1, Err (PathDoesNotExist LOG_DATA))
        | Some (LogJson (r :: rows)) =>
            let store2 :=
              <[USERS_OUT :=
                  UsersParquet (users_table (filter_NextSong (r :: rows)))]>
                store1 in
            match with_timestamp zone (filter_NextSong (r :: rows)) with
            | None =>
                (if adaptive st then store2 else delete TIME_OUT store2,
                 Err PythonException)
            | Some df =>
                (<[SONGPLAYS_OUT :=
                     SongplaysParquet (songplays_table df (s :: songs))]>
                   (<[TIME_OUT := TimeParquet (time_table df)]> store2),
                 Ok tt)
            end
        | Some _ => (store1, Err (CannotResolveColumns LOG_DATA))
        end
    | Some _ => (s3 st, Err (CannotResolveColumns SONG_DATA))
    end.
Proof.
  rewrite main_run. cbv zeta.
  destruct (create_spark_session_run st) as (s0 & _ & Hr & _ & Hs3 & _).
  destruct (create_spark_session_engine st) as [Had _].
  destruct (create_spark_session st) as [st0 [spark|e]]; [|done].
  cbn [fst snd] in *. rewrite <- Hs3, <- Had. clear Hs3 Had Hr s0 st.
  rewrite process_song_data_run. cbv zeta.
  change ("s3a://udacity-dend/" +:+ "song_data/A/*/*/*.json") with SONG_DATA.
  destruct (s3 st0 !! SONG_DATA) as [d|] eqn:Hsong; [|done].
  destruct d as [[|s songs]| | | | | |]; try done.
  rewrite process_log_data_run. cbv zeta.
  change ("s3a://udacity-dend/" +:+ "song_data/A/*/*/*.json") with SONG_DATA.
  change ("s3a://udacity-dend/" +:+ "log_data/2018/11/*.json") with LOG_DATA.
  change ("s3a://dend-data-lake-p4/sparkify/" +:+ "songstables/")
    with SONGS_OUT.
  change ("s3a://dend-data-lake-p4/sparkify/" +:+ "artiststables/")
    with ARTISTS_OUT.
  change ("s3a://dend-data-lake-p4/sparkify/" +:+ "userstables/")
    with USERS_OUT.
  change ("s3a://dend-data-lake-p4/sparkify/" +:+ "timetables/")
    with TIME_OUT.
  change ("s3a://dend-data-lake-p4/sparkify/" +:+ "songplays/")
    with SONGPLAYS_OUT.
  cbn [s3 set_s3 add_load set_views adaptive].
  rewrite !lookup_insert_ne by paths_differ.
  destruct (s3 st0 !! LOG_DATA) as [d|] eqn:Hlog; [|done].
  destruct d as [|[|r rows]| | | | |]; try done.
  destruct (with_timestamp zone (filter_NextSong (r :: rows))) as [df|].
  - cbn [s3 set_s3 add_load set_views].
    rewrite !lookup_insert_ne by paths_differ. by rewrite Hsong.
  - by destruct (adaptive st0).
Qed.

Lemma script_run (zone : Z → Z) (st : process) :
  script zone st
  = match module_init st with
    | (st', Ok _) => main zone st'
    | (st', Err e) => (st', Err e)
    end.
Proof. unfold script. by rewrite bind_run. Qed.

(** Loading the configuration leaves the store and the engine alone, and
    how it ends depends on the local files only. *)
Lemma module_init_store (st : process) :
  s3 (module_init st).1 = s3 st
  ∧ adaptive (module_init st).1 = adaptive st.
Proof.
  rewrite module_init_run. cbv zeta.
  destruct (config_get _ _ _); [|done]. by destruct (config_get _ _ _).
Qed.

Lemma module_init_files (st st' : process) :
  local_files st = local_files st' →
  (module_init st).2 = (module_init st').2.
Proof.
  intros Hfiles. rewrite !module_init_run. cbv zeta. rewrite Hfiles.
  destruct (config_get _ _ _); [|done]. by destruct (config_get _ _ _).
Qed.

(** What one run leaves in the store and how it ends depend on the local
    files, the store and the engine only. *)
Lemma script_store (zone : Z → Z) (st : process) :
  (s3 (script zone st).1, (script zone st).2)
  = match (module_init st).2 with
    | Err e => (s3 st, Err e)
    | Ok _ => (s3 (main zone (module_init st).1).1,
               (main zone (module_init st).1).2)
    end.
Proof.
  rewrite script_run. destruct (module_init_store st) as [Hstore _].
  destruct (module_init st) as [st' [cfg|e]]; cbn [fst snd] in *; [done|].
  by rewrite Hstore.
Qed.

Ltac same_store :=
  apply map_eq; intros ?; rewrite ?lookup_insert, ?lookup_delete;
  repeat (case_decide; rewrite ?lookup_insert, ?lookup_delete); done.

(** Running [main] again over the store it left, on the same engine, ends
    the same way and changes nothing. *)
Lemma main_store_again (zone : Z → Z) (st st' : process) :
  s3 st' = s3 (main zone st).1 →
  adaptive st' = adaptive st →
  (s3 (main zone st').1, (main zone st').2)
  = (s3 (main zone st).1, (main zone st).2).
Proof.
  intros Hst' Had. rewrite (main_store zone st'), Hst', Had.
  pose proof (main_store zone st) as Hfirst. cbv zeta in *.
  destruct (s3 st !! SONG_DATA) as [d|] eqn:Hsong.
  2:{ injection Hfirst as -> ->. by rewrite Hsong. }
  destruct d as [[|s songs]| | | | | |];
    try (injection Hfirst as -> ->; by rewrite Hsong).
  destruct (s3 st !! LOG_DATA) as [d|] eqn:Hlog.
  2:{ injection Hfirst as -> ->.
      rewrite !lookup_insert_ne by paths_differ. rewrite Hsong, Hlog.
      f_equal. same_store. }
  destruct d as [|[|r rows]| | | | |];
    try (injection Hfirst as -> ->;
         rewrite !lookup_insert_ne by paths_differ; rewrite Hsong, Hlog;
         f_equal; same_store).
  destruct (with_timestamp zone (filter_NextSong (r :: rows))) as [df|]
    eqn:Hts.
  - injection Hfirst as -> ->.
    rewrite !lookup_insert_ne by paths_differ. rewrite Hsong, Hlog, Hts.
    f_equal. same_store.
  - destruct (adaptive st); injection Hfirst as -> ->;
      rewrite ?lookup_delete_ne by paths_differ;
      rewrite !lookup_insert_ne by paths_differ; rewrite Hsong, Hlog, Hts;
      f_equal; same_store.
Qed.

(** A run repeated on the same engine, whether it succeeded or failed,
    ends the same way and leaves the store as the first run left it. *)
Lemma rerun_same_store (zone : Z → Z) (adaptive_engine : bool)
    (files : gmap string config_parser) (env env' : gmap string string)
    (store : gmap string dataset) :
  run_job zone adaptive_engine files env'
    (run_job zone adaptive_engine files env store).1
  = run_job zone adaptive_engine files env store.
Proof.
  unfold run_job. cbv zeta. cbn [fst snd].
  set (st1 := Process files env None 0 store [] ∅ adaptive_engine).
  set (st2 := Process files env' None 0 (s3 (script zone st1).1) [] ∅
                adaptive_engine).
  rewrite (script_store zone st2), (module_init_files st2 st1) by done.
  pose proof (script_store zone st1) as Hfirst. rewrite Hfirst.
  destruct (module_init_store st1) as [Hs1 Ha1].
  destruct (module_init_store st2) as [Hs2 Ha2].
  destruct (module_init st1).2 as [cfg|e] eqn:Hinit.
  - apply main_store_again.
    + rewrite Hs2. change (s3 st2) with (s3 (script zone st1).1).
      by injection Hfirst.
    + by rewrite Ha1, Ha2.
  - change (s3 st2) with (s3 (script zone st1).1).
    injection Hfirst as Hstore _. by rewrite Hstore.
Qed.



(** The sample job, run twice: the second run leaves the store of the
    first. *)
Example rerun_sample :
  let first :=
    run_job utc false {[ "dl.cfg"%string := sample_cfg ]} ∅ sample_store in
  first.2 = Ok tt
  ∧ run_job utc false {[ "dl.cfg"%string := sample_cfg ]} ∅ first.1 = first.
Proof. vm_compute. done. Qed.

(** * Further properties of the job *)

(** ** Tables as multisets: the order of the input rows *)

Lemma distinct_Permutation {A} `{EqDecision A} (l l' : list A) :
  l ≡ₚ l' → distinct l ≡ₚ distinct l'.
Proof.
  intros Hperm. unfold distinct.
  apply NoDup_Permutation; try apply NoDup_remove_dups.
  intros x. by rewrite !elem_of_remove_dups, Hperm.
Qed.

Lemma filter_bool_Permutation {A} (f : A → bool) (l l' : list A) :
  l ≡ₚ l' → List.filter f l ≡ₚ List.filter f l'.
Proof.
  induction 1 as [|x l l' _ IH|x y l|l l' l'' _ IH1 _ IH2]; simpl.
  - done.
  - destruct (f x); by rewrite IH.
  - destruct (f x), (f y); try done. apply perm_swap.
  - by etrans.
Qed.

Lemma flat_map_pointwise_Permutation {A B} (f g : A → list B) (l : list A) :
  (∀ x, f x ≡ₚ g x) → flat_map f l ≡ₚ flat_map g l.
Proof.
  intros Hfg. induction l as [|x l IH]; [done|].
  simpl. by rewrite (Hfg x), IH.
Qed.

Lemma left_join_Permutation {A B} (on : A → B → option bool)
    (left left' : list A) (right right' : list B) :
  left ≡ₚ left' → right ≡ₚ right' →
  left_join on left right ≡ₚ left_join on left' right'.
Proof.
  intros Hl Hr. unfold left_join. etrans.
  - apply (flat_map_pointwise_Permutation _
             (λ l, match List.filter (λ r, holds (on l r)) right' with
                   | [] => [(l, None)]
                   | ms => map (λ r, (l, Some r)) ms
                   end)).
    intros x.
    pose proof (filter_bool_Permutation (λ r, holds (on x r)) _ _ Hr) as Hf.
    destruct (List.filter _ right) as [|r ms] eqn:H1.
    + apply Permutation_nil in Hf. by rewrite Hf.
    + destruct (List.filter _ right') as [|r' ms'] eqn:H2.
      * symmetry in Hf. by apply Permutation_nil in Hf.
      * by apply Permutation_map.
  - by apply Permutation_flat_map.
Qed.

Lemma mapM_Permutation {A B} (f : A → option B) (l l' : list A)
    (k : list B) :
  l ≡ₚ l' → mapM f l = Some k → ∃ k', mapM f l' = Some k' ∧ k ≡ₚ k'.
Proof.
  intros Hperm. revert k.
  induction Hperm as [|x l l' _ IH|x y l|l l' l'' _ IH1 _ IH2]; intros k Hk.
  - by exists k.
  - change (mapM f (x :: l)) with (y ← f x; k ← mapM f l; mret (y :: k)) in Hk.
    change (mapM f (x :: l')) with (y ← f x; k ← mapM f l'; mret (y :: k)).
    destruct (f x) as [y|]; simpl in *; [|done].
    destruct (mapM f l) as [k0|]; simpl in *; [|done].
    injection Hk as <-. destruct (IH k0 eq_refl) as (k' & -> & Hk').
    exists (y :: k'). simpl. split; [done|]. by constructor.
  - change (mapM f (y :: x :: l))
      with (b ← f y; k ← (a ← f x; k ← mapM f l; mret (a :: k));
            mret (b :: k)) in Hk.
    change (mapM f (x :: y :: l))
      with (a ← f x; k ← (b ← f y; k ← mapM f l; mret (b :: k));
            mret (a :: k)).
    destruct (f y) as [b|], (f x) as [a|]; simpl in *; try done.
    destruct (mapM f l) as [k0|]; simpl in *; [|done].
    injection Hk as <-. exists (a :: b :: k0). split; [done|].
    apply perm_swap.
  - destruct (IH1 k Hk) as (k' & Hk' & Hp').
    destruct (IH2 k' Hk') as (k'' & Hk'' & Hp'').
    exists k''. split; [done|]. by etrans.
Qed.

(** X1: the songs and artists tables, and the songplays table, hold the
    same rows whatever the order in which the catalog files are read. *)
Theorem catalog_order_irrelevant (songs songs' : list song_record)
    (events : list event_ts) :
  songs ≡ₚ songs' →
  songs_table songs ≡ₚ songs_table songs'
  ∧ artists_table songs ≡ₚ artists_table songs'
  ∧ songplays_table events songs ≡ₚ songplays_table events songs'.
Proof.
  intros Hperm. unfold songs_table, artists_table, songplays_table, df_select.
  split; [|split].
  - apply distinct_Permutation. by apply Permutation_map.
  - apply distinct_Permutation. by apply Permutation_map.
  - apply Permutation_map. by apply left_join_Permutation.
Qed.

Lemma catalog_order_irrelevant_witness :
  songplays_table sample_df [song_x; song_untitled]
  ≡ₚ songplays_table sample_df [song_untitled; song_x].
Proof.
  refine (proj2 (proj2 (catalog_order_irrelevant [song_x; song_untitled]
                          [song_untitled; song_x] sample_df _))).
  apply perm_swap.
Defined.

(** X2: the order of the log rows does not matter either: on a permuted log
    the timestamp column is computed as well, and the users, time and
    songplays tables hold the same rows. *)
Theorem log_order_irrelevant (zone : Z → Z) (log log' : list event)
    (df : list event_ts) (songs : list song_record) :
  log ≡ₚ log' →
  with_timestamp zone (filter_NextSong log) = Some df →
  users_table (filter_NextSong log) ≡ₚ users_table (filter_NextSong log')
  ∧ ∃ df', with_timestamp zone (filter_NextSong log') = Some df'
           ∧ time_table df ≡ₚ time_table df'
           ∧ songplays_table df songs ≡ₚ songplays_table df' songs.
Proof.
  intros Hperm Hdf.
  assert (Hfilter : filter_NextSong log ≡ₚ filter_NextSong log')
    by by apply filter_bool_Permutation.
  split.
  - apply distinct_Permutation. by apply Permutation_map.
  - destruct (mapM_Permutation _ _ _ _ Hfilter Hdf) as (df' & Hdf' & Hp).
    exists df'. split; [exact Hdf'|]. split.
    + apply distinct_Permutation. by apply Permutation_map.
    + apply Permutation_map. by apply left_join_Permutation.
Qed.

Lemma log_order_irrelevant_witness :
  users_table (filter_NextSong sample_log)
  ≡ₚ users_table (filter_NextSong [play_y_paid; home_visit; play_x]).
Proof.
  refine (proj1 (log_order_irrelevant utc sample_log
                   [play_y_paid; home_visit; play_x] sample_df [song_x] _ _)).
  - etrans; [apply perm_swap|]. etrans; [apply perm_skip, perm_swap|].
    apply perm_swap.
  - reflexivity.
Defined.

(** ** What the join produces *)

Lemma holds_songplays_on (e : event_ts) (s : song_record) :
  holds (songplays_on e s) = true
  ↔ is_Some (ev_song (ets_event e)) ∧ is_Some (ev_artist (ets_event e))
    ∧ ev_song (ets_event e) = sr_title s
    ∧ ev_artist (ets_event e) = sr_artist_name s.
Proof.
  unfold songplays_on, sql_eq. split.
  - intros Hon.
    destruct (ev_song (ets_event e)) as [t|], (sr_title s) as [t'|],
             (ev_artist (ets_event e)) as [a|], (sr_artist_name s) as [a'|];
      simpl in Hon; try done;
      repeat case_bool_decide; simpl in Hon; try done.
    subst. by repeat split; try eexists.
  - intros ([t Ht] & [a Ha] & Hsong & Hartist).
    rewrite <- Hsong, <- Hartist, Ht, Ha. simpl.
    by rewrite !bool_decide_eq_true_2.
Qed.

Lemma elem_of_matching_songs (e : event_ts) (songs : list song_record)
    (s : song_record) :
  s ∈ matching_songs e songs ↔ s ∈ songs ∧ holds (songplays_on e s) = true.
Proof. unfold matching_songs. by rewrite !list_elem_of_In, filter_In. Qed.

Lemma elem_of_songplays_table (events : list event_ts)
    (songs : list song_record) (row : songplays_row) :
  row ∈ songplays_table events songs
  ↔ ∃ e, e ∈ events
         ∧ ((matching_songs e songs = [] ∧ row = songplays_select (e, None))
            ∨ ∃ s, s ∈ matching_songs e songs
                   ∧ row = songplays_select (e, Some s)).
Proof.
  induction events as [|e events IH].
  - split; [by intros ?%elem_of_nil | by intros (e & ?%elem_of_nil & _)].
  - rewrite songplays_table_cons, elem_of_app, IH, songplays_table_single.
    split.
    + intros [Hrow | (e' & He' & Hrow)].
      * exists e. split; [left|].
        destruct (matching_songs e songs) as [|s ms] eqn:Hm.
        -- left. split; [done|]. by apply list_elem_of_singleton in Hrow.
        -- right. apply list_elem_of_fmap in Hrow as (s' & -> & Hs').
           by exists s'.
      * exists e'. split; [by right | done].
    + intros (e' & He' & Hrow).
      apply elem_of_cons in He' as [-> | He']; [left | right; by exists e'].
      destruct Hrow as [[-> ->] | (s & Hs & ->)].
      * by apply list_elem_of_singleton.
      * destruct (matching_songs e songs) as [|s0 ms] eqn:Hm;
          [by apply elem_of_nil in Hs|].
        apply list_elem_of_fmap. by exists s.
Qed.

(** X3: the songplays table holds exactly the rows of a left outer join: a
    row for each retained event and each catalog row with the same non-NULL
    title and the same non-NULL artist name (compared as strings, exactly),
    carrying that catalog row's ids; and, for an event with no such catalog
    row, one row with NULL ids. *)
Theorem songplays_rows_characterised (events : list event_ts)
    (songs : list song_record) (row : songplays_row) :
  row ∈ songplays_table events songs
  ↔ ∃ e, e ∈ events
      ∧ ((∃ s, s ∈ songs
               ∧ is_Some (ev_song (ets_event e))
               ∧ is_Some (ev_artist (ets_event e))
               ∧ ev_song (ets_event e) = sr_title s
               ∧ ev_artist (ets_event e) = sr_artist_name s
               ∧ row = songplays_select (e, Some s))
         ∨ ((∀ s, s ∈ songs →
               ¬ (is_Some (ev_song (ets_event e))
                  ∧ is_Some (ev_artist (ets_event e))
                  ∧ ev_song (ets_event e) = sr_title s
                  ∧ ev_artist (ets_event e) = sr_artist_name s))
            ∧ row = songplays_select (e, None))).
Proof.
  rewrite elem_of_songplays_table. split.
  - intros (e & He & [[Hnone ->] | (s & Hs & ->)]); exists e; (split; [done|]).
    + right. split; [|done]. intros s Hs Hmatch.
      assert (s ∈ matching_songs e songs) as Hin.
      { apply elem_of_matching_songs. split; [done|].
        by apply holds_songplays_on. }
      rewrite Hnone in Hin. by apply elem_of_nil in Hin.
    + left. exists s. apply elem_of_matching_songs in Hs as [Hs Hon].
      apply holds_songplays_on in Hon as (? & ? & ? & ?). done.
  - intros (e & He & [(s & Hs & H1 & H2 & H3 & H4 & ->) | [Hno ->]]);
      exists e; (split; [done|]).
    + right. exists s. split; [|done]. apply elem_of_matching_songs.
      split; [done|]. by apply holds_songplays_on.
    + left. split; [|done].
      destruct (matching_songs e songs) as [|s ms] eqn:Hm; [done|].
      assert (s ∈ matching_songs e songs) as Hin by (rewrite Hm; left).
      apply elem_of_matching_songs in Hin as [Hs Hon].
      apply holds_songplays_on in Hon. by destruct (Hno s Hs).
Qed.

(** X4: the songplays table never has fewer rows than there are retained
    events, and never more than one per pair of a retained event and a
    catalog row (one per event when the catalog is empty). *)
Theorem songplays_row_count_bounds (events : list event_ts)
    (songs : list song_record) :
  (length events ≤ length (songplays_table events songs))%nat
  ∧ (length (songplays_table events songs)
     ≤ length events * Nat.max 1 (length songs))%nat.
Proof.
  rewrite songplays_table_length. split.
  - induction events as [|e events IH]; simpl; lia.
  - induction events as [|e events IH]; simpl; [lia|].
    assert (length (matching_songs e songs) ≤ length songs)%nat
      by apply List.filter_length_le.
    lia.
Qed.

(** ** References between the tables *)

Lemma elem_of_distinct_select {A B} `{EqDecision B} (proj : A → B)
    (df : list A) (x : A) :
  x ∈ df → proj x ∈ distinct (df_select proj df).
Proof.
  intros Hx. unfold distinct, df_select. apply elem_of_remove_dups.
  apply list_elem_of_fmap. by exists x.
Qed.

Lemma elem_of_distinct_select_inv {A B} `{EqDecision B} (proj : A → B)
    (df : list A) (r : B) :
  r ∈ distinct (df_select proj df) → ∃ x, x ∈ df ∧ r = proj x.
Proof.
  unfold distinct, df_select. rewrite elem_of_remove_dups.
  intros (x & -> & Hx)%list_elem_of_fmap. by exists x.
Qed.

(** X5: every row of the songs table refers to an artist that has a row in
    the artists table written from the same load. *)
Theorem songs_refer_to_artists (df : list song_record) (r : songs_row) :
  r ∈ songs_table df →
  ∃ a, a ∈ artists_table df ∧ ar_artist_id a = so_artist_id r.
Proof.
  intros (x & Hx & ->)%elem_of_distinct_select_inv.
  exists (artists_select x). split; [|done].
  by apply elem_of_distinct_select.
Qed.

Lemma songs_refer_to_artists_witness :
  ∃ a, a ∈ artists_table [song_x; song_x_reissue]
       ∧ ar_artist_id a = so_artist_id (songs_select song_x_reissue).
Proof.
  apply (songs_refer_to_artists [song_x; song_x_reissue]).
  vm_compute. do 2 constructor.
Defined.

(** X6: every songplays row refers to rows written by the same job: its
    user and level are a row of the users table, its ts_key and start_time
    a row of the time table, and its ids are either both NULL or those of a
    row of the songs table (whose artist the artists table lists), when
    both transforms read the same catalog. *)
Theorem songplays_refer_to_dimensions (zone : Z → Z) (log : list event)
    (df : list event_ts) (songs : list song_record) (row : songplays_row) :
  with_timestamp zone (filter_NextSong log) = Some df →
  row ∈ songplays_table df songs →
  (∃ u, u ∈ users_table (filter_NextSong log)
        ∧ us_user_id u = sp_user_id row ∧ us_level u = sp_level row)
  ∧ (∃ t, t ∈ time_table df
          ∧ ti_ts_key t = sp_ts_key row ∧ ti_start_time t = sp_start_time row)
  ∧ ((sp_song_id row = None ∧ sp_artist_id row = None)
     ∨ (∃ s, s ∈ songs_table songs
             ∧ so_song_id s = sp_song_id row
             ∧ so_artist_id s = sp_artist_id row)
       ∧ (∃ a, a ∈ artists_table songs
               ∧ ar_artist_id a = sp_artist_id row)).
Proof.
  intros Hdf (e & He & Hrow)%elem_of_songplays_table.
  assert (Hev : ets_event e ∈ filter_NextSong log).
  { rewrite <- (with_timestamp_events _ _ _ Hdf).
    apply list_elem_of_fmap. by exists e. }
  assert (Hparts : sp_user_id row = ev_userId (ets_event e)
                   ∧ sp_level row = ev_level (ets_event e)
                   ∧ sp_ts_key row = ev_ts (ets_event e)
                   ∧ sp_start_time row = ets_timestamp e).
  { by destruct Hrow as [[_ ->] | (s & _ & ->)]. }
  destruct Hparts as (Hu & Hl & Hk & Ht).
  split; [|split].
  - exists (users_select (ets_event e)).
    split; [by apply elem_of_distinct_select|]. by rewrite Hu, Hl.
  - exists (time_select e).
    split; [by apply elem_of_distinct_select|]. by rewrite Hk, Ht.
  - destruct Hrow as [[_ ->] | (s & Hs & ->)]; [by left | right].
    apply elem_of_matching_songs in Hs as [Hs _]. split.
    + exists (songs_select s). split; [|done].
      by apply elem_of_distinct_select.
    + exists (artists_select s). split; [|done].
      by apply elem_of_distinct_select.
Qed.

Lemma songplays_refer_to_dimensions_witness :
  ∃ t, t ∈ time_table sample_df
       ∧ ti_ts_key t = Some 1542037200000
       ∧ ti_start_time t = at_2018_11_12_1540.
Proof.
  refine (proj1 (proj2 (songplays_refer_to_dimensions utc sample_log
            sample_df [song_x]
            (songplays_select (EventTs play_x at_2018_11_12_1540, Some song_x))
            _ _))).
  - reflexivity.
  - vm_compute. constructor.
Defined.

(** ** A log that repeats its entries *)

Lemma distinct_app_subseteq {A} `{EqDecision A} (l1 l2 : list A) :
  l1 ⊆ l2 → distinct (l1 ++ l2) = distinct l2.
Proof.
  unfold distinct. induction l1 as [|x l1 IH]; intros Hsub; [done|].
  simpl. destruct (decide_rel elem_of x (l1 ++ l2)) as [_|Hout].
  - apply IH. intros y Hy. apply Hsub. by right.
  - destruct Hout. apply elem_of_app. right. apply Hsub. by left.
Qed.

Lemma with_timestamp_app (zone : Z → Z) (l1 l2 : list event)
    (df1 df2 : list event_ts) :
  with_timestamp zone l1 = Some df1 → with_timestamp zone l2 = Some df2 →
  with_timestamp zone (l1 ++ l2) = Some (df1 ++ df2).
Proof.
  unfold with_timestamp. rewrite !mapM_Some. apply Forall2_app.
Qed.

Lemma count_rows_app {A} `{EqDecision A} (r : A) (l1 l2 : list A) :
  count_rows r (l1 ++ l2) = (count_rows r l1 + count_rows r l2)%nat.
Proof. unfold count_rows. by rewrite List.filter_app, length_app. Qed.

(** X7: only the songplays table keeps repetitions.  If every entry of the
    log is delivered twice, the users and time tables are what they are for
    the log delivered once, while every songplays row occurs twice as
    often. *)
Theorem repeated_log_entries (zone : Z → Z) (log : list event)
    (df : list event_ts) (songs : list song_record) :
  with_timestamp zone (filter_NextSong log) = Some df →
  with_timestamp zone (filter_NextSong (log ++ log)) = Some (df ++ df)
  ∧ users_table (filter_NextSong (log ++ log))
    = users_table (filter_NextSong log)
  ∧ time_table (df ++ df) = time_table df
  ∧ ∀ row, count_rows row (songplays_table (df ++ df) songs)
           = (2 * count_rows row (songplays_table df songs))%nat.
Proof.
  intros Hdf.
  assert (Hfilter : filter_NextSong (log ++ log)
                    = filter_NextSong log ++ filter_NextSong log).
  { unfold filter_NextSong, df_filter. apply List.filter_app. }
  split; [|split; [|split]].
  - rewrite Hfilter. by apply with_timestamp_app.
  - rewrite Hfilter. unfold users_table, df_select. rewrite map_app.
    by apply distinct_app_subseteq.
  - unfold time_table, df_select. rewrite map_app.
    by apply distinct_app_subseteq.
  - intros row. rewrite songplays_table_app, count_rows_app. lia.
Qed.

Lemma repeated_log_entries_witness :
  users_table (filter_NextSong (sample_log ++ sample_log))
  = users_table (filter_NextSong sample_log)
  ∧ count_rows (songplays_select
                  (EventTs play_x at_2018_11_12_1540, Some song_x))
               (songplays_table (sample_df ++ sample_df) [song_x])
    = (2 * count_rows (songplays_select
                         (EventTs play_x at_2018_11_12_1540, Some song_x))
                      (songplays_table sample_df [song_x]))%nat.
Proof.
  destruct (repeated_log_entries utc sample_log sample_df [song_x])
    as (_ & H1 & _ & H2).
  - reflexivity.
  - split; [exact H1 | apply H2].
Defined.

(** ** What the transforms leave alone *)

Lemma process_song_data_process (spark : nat)
    (input_data output_data : string) (st : process) :
  let st' := (process_song_data spark input_data output_data st).1 in
  environ st' = environ st ∧ local_files st' = local_files st
  ∧ active_session st' = active_session st
  ∧ next_handle st' = next_handle st
  ∧ temp_views st' = temp_views st
  ∧ adaptive st' = adaptive st.
Proof.
  cbv zeta. rewrite process_song_data_run. cbv zeta.
  destruct (s3 st !! _) as [[[|]| | | | | |]|]; done.
Qed.

Lemma process_log_data_process (zone : Z → Z) (spark : nat)
    (input_data output_data : string) (st : process) :
  let st' := (process_log_data zone spark input_data output_data st).1 in
  environ st' = environ st ∧ local_files st' = local_files st
  ∧ active_session st' = active_session st
  ∧ next_handle st' = next_handle st
  ∧ adaptive st' = adaptive st.
Proof.
  cbv zeta. rewrite process_log_data_run. cbv zeta.
  destruct (s3 st !! _) as [[|[|r rows]| | | | |]|]; try done.
  destruct (with_timestamp zone (filter_NextSong (r :: rows))) as [df|];
    [|by destruct st as [? ? ? ? ? ? ? []]].
  match goal with
  | |- context [match ?store !! ?path with _ => _ end] =>
      destruct (store !! path) as [[[|]| | | | | |]|]
  end; done.
Qed.

(** The views [process_log_data] registers with the session: it names no
    view other than [events_table] and [songs_table], and when it succeeds
    the first holds the retained events and the second the catalog it
    loaded. *)
Lemma process_log_data_views (zone : Z → Z) (spark : nat)
    (input_data output_data : string) (st : process) :
  let r := process_log_data zone spark input_data output_data st in
  (∀ name, name ∉ ["events_table"; "songs_table"]%string →
           temp_views r.1 !! name = temp_views st !! name)
  ∧ (r.2 = Ok tt →
     ∃ rows songs,
       s3 st !! (input_data +:+ "log_data/2018/11/*.json")
       = Some (LogJson rows)
       ∧ temp_views r.1 !! "events_table"%string
         = Some (TimestampedEvents (filter_NextSong rows))
       ∧ temp_views r.1 !! "songs_table"%string
         = Some (LoadedView (SongJson songs))).
Proof.
  cbv zeta. rewrite process_log_data_run. cbv zeta.
  assert (Hother : ∀ name : string,
            name ∉ ["events_table"; "songs_table"]%string →
            name ≠ "events_table"%string ∧ name ≠ "songs_table"%string).
  { intros name Hname. split; intros ->; apply Hname; set_solver. }
  destruct (s3 st !! _) as [[|[|r rows]| | | | |]|]; try done.
  destruct (with_timestamp zone (filter_NextSong (r :: rows))) as [df|].
  - match goal with
    | |- context [match ?store !! ?path with _ => _ end] =>
        destruct (store !! path) as [[[|s songs]| | | | | |]|]
    end;
      (split; [intros name [H1 H2]%Hother;
               cbn [fst temp_views set_views set_s3 add_load];
               by rewrite ?lookup_insert_ne by done
              | try done]).
    intros _. exists (r :: rows), (s :: songs). split; [done|].
    cbn [fst temp_views set_views set_s3 add_load].
    rewrite lookup_insert_ne by done. by rewrite !lookup_insert_eq.
  - split; [|done]. intros name [H1 H2]%Hother.
    destruct (adaptive st); cbn [fst temp_views set_views set_s3 add_load];
      by rewrite lookup_insert_ne by done.
Qed.

(** X8: whatever happens, the two transforms change no storage path other
    than their own output paths and leave the environment as they found it.
    [process_song_data] registers no view with the session;
    [process_log_data] registers or replaces the views [events_table] and
    [songs_table] and no other, and when it succeeds [events_table] holds
    the retained events and [songs_table] a song catalog. *)
Theorem transforms_touch_only_outputs (zone : Z → Z) (spark : nat)
    (input_data output_data : string) (st : process) (path : string) :
  path ∉ [output_data +:+ "songstables/"; output_data +:+ "artiststables/";
          output_data +:+ "userstables/"; output_data +:+ "timetables/";
          output_data +:+ "songplays/"] →
  let after_songs := (process_song_data spark input_data output_data st).1 in
  let logs := process_log_data zone spark input_data output_data st in
  s3 after_songs !! path = s3 st !! path
  ∧ s3 logs.1 !! path = s3 st !! path
  ∧ environ after_songs = environ st ∧ environ logs.1 = environ st
  ∧ temp_views after_songs = temp_views st
  ∧ (∀ name, name ∉ ["events_table"; "songs_table"]%string →
             temp_views logs.1 !! name = temp_views st !! name)
  ∧ (logs.2 = Ok tt →
     ∃ rows songs,
       s3 st !! (input_data +:+ "log_data/2018/11/*.json")
       = Some (LogJson rows)
       ∧ temp_views logs.1 !! "events_table"%string
         = Some (TimestampedEvents (filter_NextSong rows))
       ∧ temp_views logs.1 !! "songs_table"%string
         = Some (LoadedView (SongJson songs))).
Proof.
  intros Hpath after_songs logs.
  assert (Hne : ∀ suffix,
            suffix ∈ ["songstables/"; "artiststables/"; "userstables/";
                      "timetables/"; "songplays/"]%string →
            output_data +:+ suffix ≠ path).
  { intros suffix Hin <-. apply Hpath.
    apply (list_elem_of_fmap_2 (String.app output_data)) in Hin.
    exact Hin. }
  destruct (process_song_data_process spark input_data output_data st)
    as (He1 & _ & _ & _ & Hv1 & _).
  destruct (process_log_data_process zone spark input_data output_data st)
    as (He2 & _).
  destruct (process_log_data_views zone spark input_data output_data st)
    as (Hv2 & Hv3).
  cbv zeta in *. subst after_songs logs.
  split; [|split; [|done]].
  - clear -Hne. rewrite process_song_data_run. cbv zeta.
    destruct (s3 st !! _) as [[[|]| | | | | |]|]; try done.
    cbn [fst s3 set_s3 add_load].
    rewrite !lookup_insert_ne; [done| |]; apply Hne; set_solver.
  - clear -Hne. rewrite process_log_data_run. cbv zeta.
    destruct (s3 st !! _) as [[|[|r rows]| | | | |]|]; try done.
    destruct (with_timestamp zone (filter_NextSong (r :: rows))) as [df|].
    + match goal with
      | |- context [match ?store !! ?p with _ => _ end] =>
          destruct (store !! p) as [[[|]| | | | | |]|]
      end; cbn [fst s3 set_s3 add_load set_views];
        rewrite !lookup_insert_ne; try done; apply Hne; set_solver.
    + destruct (adaptive st); cbn [fst s3 set_s3 add_load set_views];
        rewrite ?lookup_delete_ne; rewrite ?lookup_insert_ne; try done;
        apply Hne; set_solver.
Qed.

Lemma transforms_touch_only_outputs_witness :
  s3 (process_log_data utc 0 "s3a://udacity-dend/" "out/" sample_process).1
    !! "s3a://udacity-dend/log_data/2018/11/*.json"%string
  = s3 sample_process !! "s3a://udacity-dend/log_data/2018/11/*.json"%string
  ∧ temp_views
      (process_log_data utc 0 "s3a://udacity-dend/" "out/" sample_process).1
    !! "events_table"%string
    = Some (TimestampedEvents [play_x; play_y_paid]).
Proof.
  destruct (transforms_touch_only_outputs utc 0 "s3a://udacity-dend/" "out/"
              sample_process "s3a://udacity-dend/log_data/2018/11/*.json")
    as (_ & Hpath & _ & _ & _ & _ & Hviews).
  - vm_compute. intros H. repeat (inversion H as [|? ? ? H']; clear H;
                                   rename H' into H).
  - split; [exact Hpath|].
    destruct Hviews as (rows & songs & Hrows & Hevents & _);
      [vm_compute; reflexivity|].
    rewrite Hevents. vm_compute in Hrows. injection Hrows as <-.
    reflexivity.
Defined.

(** ** How [main] ends *)

Lemma main_process (zone : Z → Z) (st : process) :
  environ (main zone st).1 = environ st
  ∧ local_files (main zone st).1 = local_files st.
Proof.
  rewrite main_run. cbv zeta.
  destruct (create_spark_session_run st)
    as (s & _ & _ & _ & _ & _ & He & Hf).
  destruct (create_spark_session st) as [st0 [spark|e]]; [|done].
  cbn [fst snd] in *.
  destruct (process_song_data_process spark "s3a://udacity-dend/"
              "s3a://dend-data-lake-p4/sparkify/" st0) as (He1 & Hf1 & _).
  cbv zeta in *.
  destruct (process_song_data spark _ _ st0) as [st1 [[]|e]];
    cbn [fst snd] in *; [|by rewrite He1, Hf1].
  destruct (process_log_data_process zone spark "s3a://udacity-dend/"
              "s3a://dend-data-lake-p4/sparkify/" st1) as (He2 & Hf2 & _).
  cbv zeta in *. by rewrite He2, Hf2, He1, Hf1.
Qed.

(** X9: [main] succeeds only when the song pattern holds a song catalog
    with at least one row, the log pattern holds an event log with at least
    one row and the Python lambda returns a date and time for the [ts] of
    every retained event (so no such [ts] is NULL); it then leaves the five
    tables the table functions give on the catalog and on the retained
    events. *)
Theorem main_succeeds_only_if (zone : Z → Z) (st : process) :
  (main zone st).2 = Ok tt →
  ∃ songs rows df,
    s3 st !! SONG_DATA = Some (SongJson songs) ∧ songs ≠ []
    ∧ s3 st !! LOG_DATA = Some (LogJson rows) ∧ rows ≠ []
    ∧ Forall (λ e, is_Some (ev_ts e)
                   ∧ is_Some (get_timestamp zone (ev_ts e)))
             (filter_NextSong rows)
    ∧ with_timestamp zone (filter_NextSong rows) = Some df
    ∧ s3 (main zone st).1 !! SONGS_OUT
      = Some (SongsParquet (songs_table songs))
    ∧ s3 (main zone st).1 !! ARTISTS_OUT
      = Some (ArtistsParquet (artists_table songs))
    ∧ s3 (main zone st).1 !! USERS_OUT
      = Some (UsersParquet (users_table (filter_NextSong rows)))
    ∧ s3 (main zone st).1 !! TIME_OUT = Some (TimeParquet (time_table df))
    ∧ s3 (main zone st).1 !! SONGPLAYS_OUT
      = Some (SongplaysParquet (songplays_table df songs)).
Proof.
  pose proof (main_store zone st) as Hmain. cbv zeta in Hmain.
  intros Hok.
  destruct (s3 st !! SONG_DATA) as [d|] eqn:Hsong;
    [|injection Hmain as _ Hr; congruence].
  destruct d as [[|s songs]| | | | | |];
    try (injection Hmain as _ Hr; congruence).
  destruct (s3 st !! LOG_DATA) as [d|] eqn:Hlog;
    [|injection Hmain as _ Hr; congruence].
  destruct d as [|[|r rows]| | | | |];
    try (injection Hmain as _ Hr; congruence).
  destruct (with_timestamp zone (filter_NextSong (r :: rows))) as [df|]
    eqn:Hts; [|injection Hmain as _ Hr; congruence].
  injection Hmain as Hstore _. exists (s :: songs), (r :: rows), df.
  do 4 (split; [done|]). split.
  { assert (is_Some (with_timestamp zone (filter_NextSong (r :: rows))))
      as Hall by by rewrite Hts.
    apply with_timestamp_is_Some in Hall.
    eapply Forall_impl; [exact Hall|]. intros e [t Ht]. split; [|by exists t].
    destruct (ev_ts e); [by eexists | done]. }
  split; [done|]. rewrite Hstore.
  repeat split;
    repeat first [ apply lookup_insert_eq
                 | rewrite lookup_insert_ne by paths_differ ].
Qed.

Lemma main_succeeds_only_if_witness :
  s3 (main utc sample_process).1 !! USERS_OUT
  = Some (UsersParquet [users_select play_x; users_select play_y_paid]).
Proof.
  destruct (main_succeeds_only_if utc sample_process)
    as (songs & rows & df & _ & _ & Hrows & _ & _ & _ & _ & _ & Husers & _).
  - vm_compute. reflexivity.
  - rewrite Husers. vm_compute in Hrows. injection Hrows as <-.
    reflexivity.
Defined.

(** X10: when the song pattern holds no song catalog, [main] raises after
    its first load, the log is never asked for and nothing is written. *)
Theorem main_without_catalog (zone : Z → Z) (st : process) :
  (∀ songs, s3 st !! SONG_DATA ≠ Some (SongJson songs)) →
  (∃ e, (main zone st).2 = Err e
        ∧ e ∈ [PathDoesNotExist SONG_DATA; CannotResolveColumns SONG_DATA])
  ∧ s3 (main zone st).1 = s3 st
  ∧ loads (main zone st).1 = loads st ++ [SONG_DATA].
Proof.
  intros Hnone. rewrite main_run. cbv zeta.
  destruct (create_spark_session_run st)
    as (s & _ & Hr & _ & Hstore & Hloads & _).
  destruct (create_spark_session st) as [st0 [spark|e]]; [|done].
  cbn [fst snd] in *. rewrite process_song_data_run. cbv zeta.
  change ("s3a://udacity-dend/" +:+ "song_data/A/*/*/*.json") with SONG_DATA.
  rewrite <- Hstore in Hnone. rewrite <- Hstore, <- Hloads.
  destruct (s3 st0 !! SONG_DATA) as [d|]; [destruct d as [songs| | | | | |]|];
    try (by destruct (Hnone songs));
    (split; [eexists; split; [done|set_solver] | done]).
Qed.

Lemma main_without_catalog_witness :
  s3 (main utc (Process ∅ ∅ None O ∅ [] ∅ true)).1 = ∅
  ∧ loads (main utc (Process ∅ ∅ None O ∅ [] ∅ true)).1 = [SONG_DATA].
Proof.
  refine (proj2 (main_without_catalog utc (Process ∅ ∅ None O ∅ [] ∅ true)
                   _)).
  intros songs. simpl. by rewrite lookup_empty.
Defined.

(** X11: when the Python lambda raises on the [ts] of a retained event
    (a NULL [ts], or one whose local year is not in 1 to 9999), [main]
    raises from it after writing the songs, artists and users tables.  The
    songplays path keeps whatever it held before (a stale table of an
    earlier run, or nothing).  So does the time path when the engine
    executes adaptively, as it does by default; otherwise the time path has
    been cleared for the write and is left empty. *)
Theorem main_null_ts_partial_output (zone : Z → Z) (st : process)
    (songs : list song_record) (rows : list event) :
  s3 st !! SONG_DATA = Some (SongJson songs) →
  songs ≠ [] →
  s3 st !! LOG_DATA = Some (LogJson rows) →
  Exists (λ e, get_timestamp zone (ev_ts e) = None) (filter_NextSong rows) →
  (main zone st).2 = Err PythonException
  ∧ s3 (main zone st).1 !! SONGS_OUT = Some (SongsParquet (songs_table songs))
  ∧ s3 (main zone st).1 !! ARTISTS_OUT
    = Some (ArtistsParquet (artists_table songs))
  ∧ s3 (main zone st).1 !! USERS_OUT
    = Some (UsersParquet (users_table (filter_NextSong rows)))
  ∧ s3 (main zone st).1 !! TIME_OUT
    = (if adaptive st then s3 st !! TIME_OUT else None)
  ∧ s3 (main zone st).1 !! SONGPLAYS_OUT = s3 st !! SONGPLAYS_OUT.
Proof.
  intros Hsong Hsongs Hlog Hnull.
  pose proof (main_store zone st) as Hmain. cbv zeta in Hmain.
  rewrite Hsong, Hlog in Hmain.
  destruct songs as [|s songs]; [done|].
  destruct rows as [|r rows]; [by apply Exists_nil in Hnull|].
  destruct (with_timestamp zone (filter_NextSong (r :: rows))) as [df|]
    eqn:Hts.
  - assert (is_Some (with_timestamp zone (filter_NextSong (r :: rows))))
      as Hall by by rewrite Hts.
    apply with_timestamp_is_Some in Hall.
    apply Exists_exists in Hnull as (e & He & Hnone).
    rewrite Forall_forall in Hall. specialize (Hall e He).
    rewrite Hnone in Hall. by destruct Hall.
  - injection Hmain as Hstore Hresult. split; [done|]. rewrite Hstore.
    destruct (adaptive st);
      repeat split;
      repeat first [ apply lookup_insert_eq
                   | apply lookup_delete_eq
                   | rewrite lookup_delete_ne by paths_differ
                   | rewrite lookup_insert_ne by paths_differ ]; done.
Qed.

Lemma main_null_ts_partial_output_witness :
  (main utc stale_process).2 = Err PythonException
  ∧ s3 (main utc stale_process).1 !! TIME_OUT = Some (TimeParquet []).
Proof.
  destruct (main_null_ts_partial_output utc stale_process [song_x]
              [play_x; play_no_ts]) as (H1 & _ & _ & _ & H2 & _).
  - reflexivity.
  - done.
  - reflexivity.
  - apply Exists_cons_tl, Exists_cons_hd. reflexivity.
  - split; [exact H1 | exact H2].
Defined.

(** The same log on an engine that does not execute adaptively: the stale
    time table is gone when the job fails; and a [ts] whose year no
    [datetime] holds makes the lambda raise as a NULL one does. *)
Example failed_job_clears_time_table :
  s3 (main utc (Process ∅ ∅ None 0 stale_store [] ∅ false)).1 !! TIME_OUT
  = None
  ∧ s3 (main utc (Process ∅ ∅ None 0 stale_store [] ∅ false)).1
      !! SONGPLAYS_OUT
    = stale_store !! SONGPLAYS_OUT
  ∧ get_timestamp utc (Some 253402300800000) = None.
Proof. vm_compute. done. Qed.

(** ** The order of the module-level statements *)



(** A single percent sign in the access key id: the value does not
    interpolate and nothing is set, although the secret key is there; in
    the secret key: the id is set before the program fails.  A doubled
    percent sign stands for one. *)
Example module_init_percent_sign :
  let id_bad :=
    ConfigParser ∅ {[ "AWS" := {[ "aws_access_key_id" := "AK%IA";
                                  "aws_secret_access_key" := "s3cr3t" ]} ]} in
  let secret_bad :=
    ConfigParser ∅ {[ "AWS" := {[ "aws_access_key_id" := "AK%%IA";
                                  "aws_secret_access_key" := "s3%cr3t" ]} ]} in
  let start files := Process {[ "dl.cfg" := files ]} ∅ None 0 ∅ [] ∅ true in
  module_init (start id_bad)
  = (start id_bad,
     Err (InterpolationSyntaxError "aws_access_key_id" "AWS"))
  ∧ module_init (start secret_bad)
    = (set_environ <[ "AWS_ACCESS_KEY_ID" := "AK%IA" ]> (start secret_bad),
       Err (InterpolationSyntaxError "aws_secret_access_key" "AWS")).
Proof. split; reflexivity. Qed.

(** X13: the program never asks storage for anything before both
    credential variables are in the environment, with the interpolated
    values of the two keys of the configuration file; and they are still
    there when it ends. *)
Theorem storage_access_after_credentials (zone : Z → Z) (st : process) :
  loads (script zone st).1 ≠ loads st →
  ∃ cfg d raw1 raw2 id secret,
    local_files st !! "dl.cfg"%string = Some cfg
    ∧ cp_sections cfg !! "AWS"%string = Some d
    ∧ (d ∪ cp_defaults cfg) !! "aws_access_key_id"%string = Some raw1
    ∧ (d ∪ cp_defaults cfg) !! "aws_secret_access_key"%string = Some raw2
    ∧ before_get (d ∪ cp_defaults cfg) "aws_access_key_id" "AWS" raw1
      = Ok id
    ∧ before_get (d ∪ cp_defaults cfg) "aws_secret_access_key" "AWS" raw2
      = Ok secret
    ∧ environ (script zone st).1 !! "AWS_ACCESS_KEY_ID"%string = Some id
    ∧ environ (script zone st).1 !! "AWS_SECRET_ACCESS_KEY"%string
      = Some secret.
Proof.
  intros Hloads. rewrite script_run in Hloads |- *.
  rewrite module_init_run in Hloads |- *. cbv zeta in *.
  destruct (config_get _ "AWS" "AWS_ACCESS_KEY_ID") as [id|e1] eqn:Hid;
    [|done].
  destruct (config_get _ "AWS" "AWS_SECRET_ACCESS_KEY") as [secret|e2]
    eqn:Hsecret; [|done].
  apply config_get_present in Hid as (d & raw1 & Hd & Hraw1 & Hid).
  apply config_get_present in Hsecret as (d' & raw2 & Hd' & Hraw2 & Hsecret).
  rewrite Hd in Hd'. injection Hd' as <-.
  destruct (local_files st !! "dl.cfg"%string) as [cfg|] eqn:Hfile;
    [|simpl in Hd; by rewrite lookup_empty in Hd].
  change (default ConfigParser_new (Some cfg)) with cfg in *.
  exists cfg, d, raw1, raw2, id, secret. repeat (split; [done|]).
  match goal with
  | |- context [main zone ?st'] =>
      destruct (main_process zone st') as [-> _]
  end.
  cbn [environ set_environ]. split.
  - rewrite lookup_insert_ne by paths_differ. apply lookup_insert_eq.
  - apply lookup_insert_eq.
Qed.

Lemma storage_access_after_credentials_witness :
  environ (script utc sample_process).1 !! "AWS_ACCESS_KEY_ID"%string
  = Some "AKIA"%string.
Proof.
  destruct (storage_access_after_credentials utc sample_process)
    as (cfg & d & raw1 & raw2 & id & secret & Hcfg & Hd & Hraw1 & _ & Hid
        & _ & Henv & _).
  - vm_compute. discriminate.
  - rewrite Henv. vm_compute in Hcfg. injection Hcfg as <-.
    vm_compute in Hd. injection Hd as <-.
    vm_compute in Hraw1. injection Hraw1 as <-.
    vm_compute in Hid. injection Hid as <-. reflexivity.
Defined.

(** ** The rows the filter keeps *)

(** X14: the filter keeps every row whose page is exactly 'NextSong', as
    many times as the log has it, and no other row; filtering again changes
    nothing. *)
Theorem filter_NextSong_keeps_plays (log : list event) (e : event) :
  count_rows e (filter_NextSong log)
  = (if decide (ev_page e = Some "NextSong"%string)
     then count_rows e log else 0%nat)
  ∧ filter_NextSong (filter_NextSong log) = filter_NextSong log.
Proof.
  split.
  - induction log as [|x log IH]; [by case_decide|].
    unfold filter_NextSong, df_filter in *. simpl.
    rewrite count_rows_cons.
    destruct (holds (page_is_NextSong x)) eqn:Hx.
    + rewrite count_rows_cons, IH. case_decide; [done|].
      rewrite decide_False; [done|]. intros ->.
      unfold page_is_NextSong in Hx.
      destruct (ev_page e) as [p|]; simpl in Hx; [|done].
      case_bool_decide; [congruence|done].
    + rewrite IH. case_decide as Hpage; [|done].
      rewrite decide_False; [done|]. intros ->.
      unfold page_is_NextSong in Hx. rewrite Hpage in Hx. by simpl in Hx.
  - unfold filter_NextSong, df_filter.
    induction log as [|x log IH]; [done|]. simpl.
    destruct (holds (page_is_NextSong x)) eqn:Hx; [|done].
    simpl. by rewrite Hx, IH.
Qed.

(** ** The sizes of the deduplicated tables *)

Lemma distinct_length {A} `{EqDecision A} (l : list A) :
  (length (distinct l) ≤ length l)%nat.
Proof.
  unfold distinct. induction l as [|x l IH]; [done|]. simpl.
  destruct (decide_rel elem_of x l); simpl; lia.
Qed.

Lemma distinct_nil_iff {A} `{EqDecision A} (l : list A) :
  distinct l = [] ↔ l = [].
Proof.
  split; [|by intros ->]. intros Hnil. destruct l as [|x l]; [done|].
  assert (x ∈ distinct (x :: l)) as Hx
    by (apply elem_of_remove_dups; left).
  rewrite Hnil in Hx. by apply elem_of_nil in Hx.
Qed.

(** X15: each deduplicated table has at most as many rows as its input,
    and is empty only when its input is: the songs and artists tables
    against the catalog, the users table against the retained events (so
    also against the log), the time table against the rows with a
    timestamp. *)
Theorem dimension_table_sizes (songs : list song_record) (log : list event)
    (df : list event_ts) :
  ((length (songs_table songs) ≤ length songs)%nat
   ∧ (songs_table songs = [] ↔ songs = []))
  ∧ ((length (artists_table songs) ≤ length songs)%nat
     ∧ (artists_table songs = [] ↔ songs = []))
  ∧ ((length (users_table (filter_NextSong log))
      ≤ length (filter_NextSong log) ≤ length log)%nat
     ∧ (users_table (filter_NextSong log) = [] ↔ filter_NextSong log = []))
  ∧ ((length (time_table df) ≤ length df)%nat
     ∧ (time_table df = [] ↔ df = [])).
Proof.
  unfold songs_table, artists_table, users_table, time_table, df_select.
  assert (Hmap : ∀ {A B} (f : A → B) (l : list A), map f l = [] ↔ l = []).
  { intros A B f l. split; [|by intros ->]. by destruct l. }
  repeat split;
    try (rewrite distinct_nil_iff; apply Hmap);
    try (intros ->; done);
    try (etrans; [apply distinct_length|]; by rewrite length_map).
  apply List.filter_length_le.
Qed.

(** ** The calendar columns *)

(** X16: whatever the [ts] and the zone rule, the calendar columns of a
    time row are in range: hour 0-23, day 1-31, ISO week 1-53, month 1-12,
    year 1-9999, weekday 1-7; they are the parts of the row's start_time,
    whose minute and second are below 60. *)
Theorem time_row_in_range (zone : Z → Z) (e : event) (r : event_ts) :
  add_timestamp zone e = Some r →
  0 ≤ ti_hour (time_select r) ≤ 23
  ∧ 1 ≤ ti_day (time_select r) ≤ 31
  ∧ 1 ≤ ti_week (time_select r) ≤ 53
  ∧ 1 ≤ ti_month (time_select r) ≤ 12
  ∧ 1 ≤ ti_year (time_select r) ≤ 9999
  ∧ 1 ≤ ti_weekday (time_select r) ≤ 7
  ∧ ti_hour (time_select r) = dt_hour (ti_start_time (time_select r))
  ∧ ti_day (time_select r) = dt_day (ti_start_time (time_select r))
  ∧ ti_month (time_select r) = dt_month (ti_start_time (time_select r))
  ∧ ti_year (time_select r) = dt_year (ti_start_time (time_select r))
  ∧ 0 ≤ dt_minute (ti_start_time (time_select r)) ≤ 59
  ∧ 0 ≤ dt_second (ti_start_time (time_select r)) ≤ 59.
Proof.
  unfold add_timestamp.
  destruct (get_timestamp zone (ev_ts e)) as [t|] eqn:Ht; [|done].
  intros [= <-].
  apply get_timestamp_Some in Ht as (ms & secs & micros & _ & _ & -> & Hyear).
  revert Hyear.
  unfold time_select, hour, dayofmonth, month, year, weekofyear, dayofweek.
  cbn [ets_timestamp ti_hour ti_day ti_week ti_month ti_year ti_weekday
       ti_start_time].
  unfold localtime. cbv zeta.
  set (local := secs + zone secs).
  destruct (civil_from_days (local / 86400)) as [[y m] d] eqn:Hciv.
  cbn [dt_year dt_month dt_day dt_hour dt_minute dt_second dt_microsecond].
  intros Hyear.
  pose proof (civil_from_days_range _ _ _ _ Hciv) as [Hm Hd].
  rewrite (days_from_civil_from_days _ _ _ _ Hciv).
  set (days := local / 86400).
  set (thursday := days - (days + 3) mod 7 + 3).
  destruct (civil_from_days thursday) as [[y' m'] d'] eqn:Hthu.
  pose proof (day_of_year_range _ _ _ _ Hthu) as Hdoy.
  assert (Hsod : 0 ≤ local mod 86400 < 86400)
    by (apply Z.mod_pos_bound; lia).
  repeat split; try done; try lia;
    try (Z.div_mod_to_equations; lia).
Qed.

Lemma time_row_in_range_witness :
  1 ≤ ti_week (time_select (EventTs play_x at_2018_11_12_1540)) ≤ 53.
Proof.
  refine (proj1 (proj2 (proj2
            (time_row_in_range utc play_x
               (EventTs play_x at_2018_11_12_1540) _)))).
  reflexivity.
Defined.

(** Half an hour before and half an hour after the clocks are set back,
    the local time is the same 01:30. *)
Example start_time_repeats_when_clocks_go_back :
  get_timestamp clocks_set_back (Some 1541309400000)
  = get_timestamp clocks_set_back (Some 1541313000000)
  ∧ get_timestamp clocks_set_back (Some 1541309400000)
    = Some (Datetime 2018 11 4 1 30 0 0).
Proof. split; reflexivity. Qed.
